(** * Wildberries category scraper: traversal and augmentation engine

    A shallow embedding of [WildBerriesParser] from
    [wildberries_category_scraper.py]: the cache test of
    [download_current_catalogue], the recursive walk [traverse_json], the
    facet lookup [node_json] and the driver [process_catalogue], followed by
    the properties of the design document that they have or miss.

    Conventions of the embedding.
    - A category of the catalogue is a Python dict with the keys [name],
      [url], [shard], [query], [id] and [childs]; every key may be absent,
      so every field is an [option].  The values have the types of the data
      model of the design document (strings, integers, a list of
      categories); [traverse_json] catches KeyError only, and a catalogue
      with values of other types is outside the model.
    - The facet response is an arbitrary JSON value: [node_json] guards its
      interpretation with bare [except] clauses, so every shape is covered.
      Numbers are integers; a number that is not an integer behaves like
      one in every operation of [node_json] (it cannot be subscripted or
      iterated and is no string).
    - The network is an oracle [aio_req]: the reply to a request may depend
      on the address and on how many requests the run has issued before.  A
      reply is a decoded document or a raised exception.
    - [flattened_catalogue] is the list that the source appends to; the
      state of a run also keeps the trace of the requested addresses.
    - Python integers are unbounded, hence [Z]. *)

From stdpp Require Import gmap strings list.
From Stdlib Require Import ZArith QArith DecimalString.

#[local] Set Warnings "-register-all".
#[local] Open Scope Z_scope.

(** ** Exceptions and results *)

Inductive exn : Type :=
| KeyError (key : string)
| ServerDisconnectedError
| ContentTypeError
| OtherError (what : string).

Inductive result (A : Type) : Type :=
| Ok (a : A)
| Raise (e : exn).
Arguments Ok {A} a.
Arguments Raise {A} e.

#[global] Instance result_ret : MRet result := @Ok.
#[global] Instance result_bind : MBind result := λ A B f r,
  match r with
  | Ok a => f a
  | Raise e => Raise e
  end.

(** [d[key]] on a dict whose entry for [key] is [field]. *)
Definition subscript {A : Type} (key : string) (field : option A) : result A :=
  match field with
  | Some a => Ok a
  | None => Raise (KeyError key)
  end.

(** ** JSON documents *)

Inductive json : Type :=
| JNull
| JBool (b : bool)
| JInt (z : Z)
| JStr (s : string)
| JArr (l : list json)
| JObj (m : gmap string json).

(** The characters of a [str], as strings of length one.  The model keeps a
    [str] as its UTF-8 bytes, so a character is a leading byte together with
    the continuation bytes (binary 10xxxxxx) that follow it. *)
Definition continuation (a : Ascii.ascii) : bool :=
  let n := Ascii.nat_of_ascii a in
  ((128 <=? n) && (n <? 192))%nat.

Definition continues (s : string) : bool :=
  match s with
  | String b _ => continuation b
  | EmptyString => false
  end.

Fixpoint chars (s : string) : list string :=
  match s with
  | EmptyString => []
  | String a rest =>
      match chars rest with
      | c :: cs =>
          if continues rest then String a c :: cs
          else String a EmptyString :: c :: cs
      | [] => [String a EmptyString]
      end
  end.

(** The Python operations that [node_json] applies to the response.  All of
    them sit under a bare [except], so which exception is raised does not
    matter: [None] stands for "raises". *)

(** [v[key]] for a string [key]: only a dict can be subscripted by a
    string, and the key has to be there. *)
Definition getitem (v : json) (key : string) : option json :=
  match v with
  | JObj m => m !! key
  | _ => None
  end.

(** [v[0]]: the first element of a list, the first character of a [str];
    a dict decoded from JSON has no integer key. *)
Definition getitem0 (v : json) : option json :=
  match v with
  | JArr l => l !! 0%nat
  | JStr s => JStr <$> chars s !! 0%nat
  | _ => None
  end.

(** [for info in v]: the elements of a list, the keys of a dict, the
    characters of a [str].  (A dict yields its keys in insertion order and
    the map below in key order; keys are strings, from which no row can be
    built, so the order is of no consequence.) *)
Definition iter (v : json) : option (list json) :=
  match v with
  | JArr l => Some l
  | JObj m => Some (JStr <$> (map_to_list m).*1)
  | JStr s => Some (JStr <$> chars s)
  | _ => None
  end.

(** [v == s] for a string literal [s]. *)
Definition eq_str (v : json) (s : string) : bool :=
  match v with
  | JStr t => bool_decide (t = s)
  | _ => false
  end.

(** ** The catalogue and the flattened rows *)

Inductive category : Type :=
  Category {
    name : option string;
    url : option string;
    shard : option Z;
    query : option string;
    id : option Z;
    childs : option (list category)
  }.

(** A row of the flattened catalogue: the dict appended by [traverse_json]
    (keys name, url, shard, query, level, id) or the one appended by
    [node_json] (keys parent_name, name, level, id). *)
Inductive row : Type :=
| Entry (name url : string) (shard : Z) (query : string) (level : Z) (id : Z)
| Facet (parent_name : string) (name : json) (level : Z) (id : json).

Definition level_of (r : row) : Z :=
  match r with
  | Entry _ _ _ _ level _ => level
  | Facet _ _ level _ => level
  end.

Definition parent_name_of (r : row) : option string :=
  match r with
  | Entry _ _ _ _ _ _ => None
  | Facet parent_name _ _ _ => Some parent_name
  end.

(** An augmented row is one with a [parent_name] key. *)
Definition augmented (r : row) : bool :=
  match r with
  | Entry _ _ _ _ _ _ => false
  | Facet _ _ _ _ => true
  end.

(** The rows that come from the catalogue itself. *)
Definition entries (rows : list row) : list row :=
  filter (λ r, augmented r = false) rows.

(** ** Replies of the network and the state of a run *)

Inductive reply : Type :=
| Json (body : json)
| Raises (e : exn).

Record state : Type := State {
  flattened_catalogue : list row;
  requests : list string
}.

Definition append (r : row) (st : state) : state :=
  State (flattened_catalogue st ++ [r]) (requests st).

Definition extend (rs : list row) (st : state) : state :=
  State (flattened_catalogue st ++ rs) (requests st).

Definition requested (u : string) (st : state) : state :=
  State (flattened_catalogue st) (requests st ++ [u]).

Definition category_label : string := "Категория".
Definition redirect_id : Z := 130090.
Definition default_shard : Z := 99999.

(** [str(z)] for an integer. *)
Definition str (z : Z) : string := NilZero.string_of_int (Z.to_int z).

(** The address of the filter document of a category (the f-string of
    [node_json]). *)
Definition url_loc (shard : Z) (query : string) : string :=
  "https://catalog.wb.ru/catalog/" +:+ str shard +:+ "/"
  +:+ "/v4/filters?appType=1&" +:+ query +:+ "&curr=rub"
  +:+ "&dest=-8144334&spp=30".

(** The dict literal of [traverse_json]: the keys are read in the order
    name, url, shard, query, id, and a missing [shard] alone is replaced by
    99999. *)
Definition entry (category : category) (level : Z) : result row :=
  n ← subscript "name" (name category);
  u ← subscript "url" (url category);
  let s := default default_shard (shard category) in
  q ← subscript "query" (query category);
  i ← subscript "id" (id category);
  mret (Entry n u s q level i).

(** The dict literal of [node_json], for one item of the facet group; the
    bare [except] around it turns every failure into "no row". *)
Definition facet (parent_name : string) (level : Z) (info : json) : list row :=
  match getitem info "name" with
  | Some n =>
      match getitem info "id" with
      | Some i => [Facet parent_name n level i]
      | None => []
      end
  | None => []
  end.

(** [response['data']['filters'][0]] *)
Definition first_group (response : json) : option json :=
  getitem response "data" ≫= λ d, getitem d "filters" ≫= getitem0.

(** The second [try] block of [node_json]: the rows it appends. *)
Definition facets (parent_name : string) (level : Z) (response : json) : list row :=
  match first_group response ≫= λ g, getitem g "name" with
  | Some label =>
      if eq_str label category_label then
        match first_group response ≫= λ g, getitem g "items" ≫= iter with
        | Some items => flat_map (facet parent_name level) items
        | None => []
        end
      else []
  | None => []
  end.

Section Parser.

(** The reply to the [n]-th request of a run, sent to address [u]. *)
Variable aio_req : nat → string → reply.

Definition node_json (category : category) (level : Z) (st : state)
  : result unit * state :=
  match name category with
  | None => (Raise (KeyError "name"), st)
  | Some parent_name =>
    match shard category with
    | None => (Raise (KeyError "shard"), st)
    | Some s =>
      match query category with
      | None => (Raise (KeyError "query"), st)
      | Some q =>
        let u := url_loc s q in
        match aio_req (length (requests st)) u with
        | Raises ServerDisconnectedError => (Ok (), requested u st)
        | Raises ContentTypeError => (Ok (), requested u st)
        | Raises e => (Raise e, requested u st)
        | Json response =>
            (Ok (), extend (facets parent_name level response) (requested u st))
        end
      end
    end
  end.

(** One iteration of the [for] loop of [traverse_json]; it returns the
    value of the local variable [level] at the end of the iteration.  The
    inner [fix] is the loop of the recursive call. *)
Fixpoint traverse_step (category : category) (level : Z) (st : state)
  {struct category} : result Z * state :=
  let level := level + 1 in
  match entry category level with
  | Raise _ =>
      let level := level - 1 in
      (Ok level, st)
  | Ok r =>
      let st := append r st in
      let traverse_json :=
        fix loop (parent_category : list _) (level : Z) (st : state)
          : result unit * state :=
          match parent_category with
          | [] => (Ok (), st)
          | c :: rest =>
              match traverse_step c level st with
              | (Ok level, st) => loop rest level st
              | (Raise e, st) => (Raise e, st)
              end
          end in
      match
        match childs category with
        | Some cs => traverse_json cs level st
        | None => (Ok (), st)
        end
      with
      | (Raise e, st) => (Raise e, st)
      | (Ok _, st) =>
          match childs category with
          | Some _ => (Ok (level - 1), st)
          | None =>
              match subscript "id" (id category) with
              | Raise e => (Raise e, st)
              | Ok i =>
                  if bool_decide (i ≠ redirect_id) then
                    let level := level + 1 in
                    match node_json category level st with
                    | (Raise e, st) => (Raise e, st)
                    | (Ok _, st) =>
                        let level := level - 1 in
                        (Ok (level - 1), st)
                    end
                  else (Ok (level - 1), st)
              end
          end
      end
  end.

Fixpoint traverse_json (parent_category : list category) (level : Z)
  (st : state) : result unit * state :=
  match parent_category with
  | [] => (Ok (), st)
  | c :: rest =>
      match traverse_step c level st with
      | (Ok level, st) => traverse_json rest level st
      | (Raise e, st) => (Raise e, st)
      end
  end.

(** [process_catalogue], from the decoded document on: the list is
    returned only when the walk returns. *)
Definition process_catalogue (catalogue : list category) : result (list row) :=
  match traverse_json catalogue (-1) (State [] []) with
  | (Ok _, st) => Ok (flattened_catalogue st)
  | (Raise e, _) => Raise e
  end.

End Parser.

(** ** The cache test of [download_current_catalogue]

    The local copy of the catalogue is a file with a modification time (a
    float, hence a rational number of seconds) or is absent.  [date] counts
    days; [fromtimestamp] is [date.fromtimestamp], which depends on the
    time zone of the machine and is a parameter. *)

Definition date : Type := Z.

Record file (doc : Type) : Type := File {
  getmtime : Q;
  content : doc
}.
Arguments File {doc} getmtime content.
Arguments getmtime {doc} f.
Arguments content {doc} f.

(** [int(x)] for a float [x]: truncation towards zero. *)
Definition int (x : Q) : Z := Z.quot (Qnum x) (Zpos (Qden x)).

Section Cache.

Context {doc : Type}.
Variable fromtimestamp : Z → date.
Variable run_date : date.

(** The condition of the [if]. *)
Definition must_download (local_catalogue : option (file doc)) : bool :=
  match local_catalogue with
  | None => true
  | Some f => bool_decide (fromtimestamp (int (getmtime f)) > run_date)
  end.

(** [download_current_catalogue]: [remote] is the reply of the catalogue
    server and [now] the time at which the file would be written.  The
    result is the exception that escapes, if any, the file afterwards and
    whether the server was asked. *)
Definition download_current_catalogue (remote : exn + doc) (now : Q)
  (local_catalogue : option (file doc))
  : result unit * option (file doc) * bool :=
  if must_download local_catalogue then
    match remote with
    | inr response => (Ok (), Some (File now response), true)
    | inl e => (Raise e, local_catalogue, true)
    end
  else (Ok (), local_catalogue, false).

End Cache.

(** [date.fromtimestamp] of a machine on UTC: days since the epoch. *)
Definition utc_date (t : Z) : date := t `div` 86400.

(** ** The tree that the design document speaks of *)

Definition children (c : category) : list category :=
  match childs c with
  | Some cs => cs
  | None => []
  end.

(** A node is well formed when it has the four required keys. *)
Definition well_formed (c : category) : bool :=
  match name c, url c, query c, id c with
  | Some _, Some _, Some _, Some _ => true
  | _, _, _, _ => false
  end.

(** All nodes of a tree in pre-order, each with its depth. *)
Fixpoint nodes (depth : Z) (c : category) : list (Z * category) :=
  (depth, c) ::
    match childs c with
    | Some cs => flat_map (nodes (depth + 1)) cs
    | None => []
    end.

(** The nodes in pre-order again, without the subtrees below a node that is
    not well formed. *)
Fixpoint reachable (depth : Z) (c : category) : list (Z * category) :=
  if well_formed c then
    (depth, c) ::
      match childs c with
      | Some cs => flat_map (reachable (depth + 1)) cs
      | None => []
      end
  else [].

(** The rows of the well-formed nodes of a list of nodes with depths. *)
Definition rows_of (l : list (Z * category)) : list row :=
  flat_map (λ dc, match entry dc.2 dc.1 with Ok r => [r] | Raise _ => [] end) l.

(** ** Notions used in the statements *)

(** A call that returns has left [level] as it was; so the equations
    below speak of [traverse_step] up to that. *)
Definition returning (level : Z) (r : result unit * state) : result Z * state :=
  match r with
  | (Ok _, st) => (Ok level, st)
  | (Raise e, st) => (Raise e, st)
  end.

(** The four ways through one iteration of the loop of [traverse_json]. *)
Inductive step_view (aio_req : nat → string → reply)
  (c : category) (level : Z) (st : state)
  : result Z * state → Prop :=
| view_malformed :
    well_formed c = false → step_view aio_req c level st (Ok level, st)
| view_childs r cs :
    entry c (level + 1) = Ok r → childs c = Some cs →
    step_view aio_req c level st
      (returning level (traverse_json aio_req cs (level + 1) (append r st)))
| view_redirect r :
    entry c (level + 1) = Ok r → childs c = None → id c = Some redirect_id →
    step_view aio_req c level st (Ok level, append r st)
| view_leaf r i :
    entry c (level + 1) = Ok r → childs c = None → id c = Some i →
    i ≠ redirect_id →
    step_view aio_req c level st
      (returning level (node_json aio_req c (level + 2) (append r st))).

(** The row of an item of the facet group, as the design document has it:
    an item with both [id] and [name] gives a row, any other none. *)
Definition item_row (parent_name : string) (level : Z) (item : json) : option row :=
  match item with
  | JObj m =>
      match m !! "id", m !! "name" with
      | Some i, Some n => Some (Facet parent_name n level i)
      | _, _ => None
      end
  | _ => None
  end.

(** The replies after which the design document expects no row. *)
Inductive no_facets : reply → Prop :=
| disconnected : no_facets (Raises ServerDisconnectedError)
| wrong_content_type : no_facets (Raises ContentTypeError)
| other_label response group label :
    first_group response = Some group →
    getitem group "name" = Some label →
    label ≠ JStr category_label →
    no_facets (Json response)
| no_groups response data :
    getitem response "data" = Some data →
    getitem data "filters" = Some (JArr []) →
    no_facets (Json response).

(** The replies that [node_json] turns into a normal return. *)
Definition handled (r : reply) : Prop :=
  match r with
  | Json _ | Raises ServerDisconnectedError | Raises ContentTypeError => True
  | Raises _ => False
  end.

(** A node whose facet lookup finds the key [shard]. *)
Definition routable (c : category) : Prop :=
  childs c = None → id c ≠ Some redirect_id → is_Some (shard c).

(** The oracle [aio_req] with the reply to request number [k] replaced by
    a dropped connection. *)
Definition inject (k : nat) (aio_req : nat → string → reply) : nat → string → reply :=
  λ n u, if decide (n = k) then Raises ServerDisconnectedError else aio_req n u.

(** The rows that [node_json] appends for a reply that it handles. *)
Definition reply_rows (parent_name : string) (level : Z) (r : reply) : list row :=
  match r with
  | Json response => facets parent_name level response
  | Raises _ => []
  end.

(** ** Sample data *)

Definition leaf_B : category :=
  Category (Some "B") (Some "/b") (Some 2) (Some "q2") (Some 2) None.
Definition node_A : category :=
  Category (Some "A") (Some "/a") (Some 1) (Some "q1") (Some 1) (Some [leaf_B]).
Definition nameless_parent : category :=
  Category None (Some "/n") (Some 3) (Some "q3") (Some 3) (Some [leaf_B]).
Definition idless_parent : category :=
  Category (Some "N") (Some "/n") (Some 3) (Some "q3") None (Some [leaf_B]).
Definition shardless_leaf : category :=
  Category (Some "S") (Some "/s") None (Some "q4") (Some 4) None.
Definition redirect_leaf : category :=
  Category (Some "R") (Some "/r") (Some 5) (Some "q5") (Some 130090) None.
Definition empty_parent : category :=
  Category (Some "E") (Some "/e") (Some 6) (Some "q6") (Some 6) (Some []).

Definition item_X : json := JObj {[ "id" := JInt 9; "name" := JStr "X" ]}.
Definition item_without_name : json := JObj {[ "id" := JInt 10 ]}.
Definition group_X : json :=
  JObj {[ "name" := JStr category_label; "items" := JArr [item_X; item_without_name] ]}.
Definition response_X : json :=
  JObj {[ "data" := JObj {[ "filters" := JArr [group_X] ]} ]}.
Definition response_empty : json :=
  JObj {[ "data" := JObj {[ "filters" := JArr [] ]} ]}.

Definition always (r : reply) : nat → string → reply := λ _ _, r.

Definition row_A : row := Entry "A" "/a" 1 "q1" 0 1.
Definition row_B (level : Z) : row := Entry "B" "/b" 2 "q2" level 2.
Definition row_X (level : Z) : row := Facet "B" (JStr "X") level (JInt 9).
Definition url_B : string := url_loc 2 "q2".

Definition join_posix (a b : string) : string := a +:+ "/" +:+ b.
Definition iso_2024_10_04 : date → string := λ _, "2024-10-04".
Definition rows_AX : list row := [row_A; row_B 1; row_X 2].

(** ** More notions about the walk *)

(** The state [st] with the rows [acc] put before its rows. *)
Definition shift (acc : list row) (st : state) : state :=
  State (acc ++ flattened_catalogue st) (requests st).

Definition framed {A : Type} (acc : list row) (x : result A * state)
  : result A * state :=
  (x.1, shift acc x.2).

(** A category for which [traverse_json] calls [node_json]: it has no
    [childs] and its [id] is not the redirect id. *)
Definition augmentable (c : category) : bool :=
  match childs c, id c with
  | None, Some i => bool_decide (i ≠ redirect_id)
  | _, _ => false
  end.

(** The address that [node_json] asks for a category, when the category
    has the keys for it. *)
Definition url_of (c : category) : option string :=
  match shard c, query c with
  | Some s, Some q => Some (url_loc s q)
  | _, _ => None
  end.

(** The addresses of the facet lookups for a list of nodes: one for each
    node that [traverse_json] hands to [node_json], [None] where the keys
    for the address are missing. *)
Definition lookups (l : list (Z * category)) : list (option string) :=
  (λ dc, url_of dc.2) <$> filter (λ dc, augmentable dc.2 = true) l.

(** The nodes of a list for which a facet request is made, in the order
    of the list. *)
Definition leaves (l : list (Z * category)) : list (Z * category) :=
  filter (λ dc, augmentable dc.2 = true) l.

(** What replacing the reply to request number [k] by a dropped
    connection does to the rows of a part of the walk: [R] are the nodes
    that the part reaches, [n] requests were made before it, [rows] are
    the rows that the part appends with the oracle [aio_req], [rows'] the
    rows that it appends with [inject k aio_req].  When request [k] is not
    one of the part the rows are the same; when it is, it is the request
    for one node [c] of [R], found by counting the requests, and [rows']
    is [rows] without the rows made from the reply to that request, which
    stand just behind the row [r] of [c]. *)
Definition isolated (aio_req : nat → string → reply) (k n : nat)
  (R : list (Z * category)) (rows rows' : list row) : Prop :=
  ((k < n ∨ n + length (leaves R) ≤ k)%nat → rows' = rows) ∧
  ((n ≤ k < n + length (leaves R))%nat →
   ∃ pre d c post r parent_name u before after,
     R = pre ++ (d, c) :: post ∧
     augmentable c = true ∧ length (leaves pre) = (k - n)%nat ∧
     entry c d = Ok r ∧ name c = Some parent_name ∧ url_of c = Some u ∧
     rows = before ++ [r] ++ reply_rows parent_name (d + 1) (aio_req k u) ++ after ∧
     rows' = before ++ [r] ++ after ∧
     entries (before ++ [r]) = rows_of (pre ++ [(d, c)])).

(** ** Runs one after the other

    The oracle numbers the requests that the network has answered.  A
    run of [process_catalogue] made after the requests [history] starts
    with an empty list, as every run does, and with its requests numbered
    after those of [history]; it leaves the requests answered so far. *)
Definition process_catalogue_after (aio_req : nat → string → reply)
  (history : list string) (catalogue : list category)
  : result (list row) * list string :=
  match traverse_json aio_req catalogue (-1) (State [] history) with
  | (Ok _, st) => (Ok (flattened_catalogue st), requests st)
  | (Raise e, st) => (Raise e, requests st)
  end.

(** Two runs on the same catalogue, the second after the first. *)
Definition two_runs (aio_req : nat → string → reply)
  (history : list string) (catalogue : list category)
  : result (list row) * result (list row) :=
  let '(first, history) := process_catalogue_after aio_req history catalogue in
  let '(second, _) := process_catalogue_after aio_req history catalogue in
  (first, second).

(** A stubbed network: the reply to a request depends on its address
    only, not on the requests made before it. *)
Definition stub (aio_req : nat → string → reply) : Prop :=
  ∀ n m u, aio_req n u = aio_req m u.

(** A network that answers its first request only. *)
Definition first_only (r : reply) : nat → string → reply :=
  λ n _, match n with O => r | S _ => Raises ServerDisconnectedError end.

(** The state [st] with the requests [history] put before its requests. *)
Definition behind (history : list string) (st : state) : state :=
  State (flattened_catalogue st) (history ++ requests st).

Definition later {A : Type} (history : list string) (x : result A * state)
  : result A * state :=
  (x.1, behind history x.2).

(** The level that the kind of a row allows at least. *)
Definition level_in_range (r : row) : Prop :=
  if augmented r then 1 ≤ level_of r else 0 ≤ level_of r.

(** The names of the well-formed categories of a list, as values. *)
Definition top_names (catalogue : list category) : list json :=
  omap (λ c, if well_formed c then JStr <$> name c else None) catalogue.

(** Reading a list of rows from the left, every augmented row names the
    catalogue row before it as its parent and lies one level below it;
    [owner] is the name and level of the last catalogue row read so far. *)
Fixpoint nested (owner : option (string * Z)) (rows : list row) : bool :=
  match rows with
  | [] => true
  | Entry n _ _ _ l _ :: rest => nested (Some (n, l)) rest
  | Facet p _ l _ :: rest =>
      match owner with
      | Some (n, lo) => bool_decide (p = n ∧ l = lo + 1) && nested owner rest
      | None => false
      end
  end.

Fixpoint last_owner (owner : option (string * Z)) (rows : list row)
  : option (string * Z) :=
  match rows with
  | [] => owner
  | Entry n _ _ _ l _ :: rest => last_owner (Some (n, l)) rest
  | Facet _ _ _ _ :: rest => last_owner owner rest
  end.

(** ** The export [save_to_excel]

    A worksheet is the name it was added with and the calls made on it,
    in order; what xlsxwriter does with a call is not interpreted, except
    that any call may raise: [xlsx_raises] gives the exception, if any,
    from the worksheets of the workbook at the time of the call (the
    current one last) and the call.  The Python variable [worksheet] is
    [None] while it is unbound; the workbook of the loop lists the
    worksheets added before the current one.  [path.join] and [strftime]
    are parameters. *)

Inductive call : Type :=
| write (row col : Z) (value : json)
| autofit.

Record sheet : Type := Sheet {
  title : json;
  calls : list call
}.

Inductive xlsx_call : Type :=
| add_worksheet (name : json)
| on_worksheet (c : call)
| close.

(** [record['level']], [record['id']] and [record['name']] as values. *)
Definition field_level (record : row) : json := JInt (level_of record).

Definition field_id (record : row) : json :=
  match record with
  | Entry _ _ _ _ _ i => JInt i
  | Facet _ _ _ i => i
  end.

Definition field_name (record : row) : json :=
  match record with
  | Entry n _ _ _ _ _ => JStr n
  | Facet _ n _ _ => n
  end.

Definition called (c : call) (ws : sheet) : sheet :=
  Sheet (title ws) (calls ws ++ [c]).

Definition unbound_worksheet : exn := OtherError "UnboundLocalError".

(** A library that raises nothing. *)
Definition silent : list sheet → xlsx_call → option exn := λ _ _, None.

Section Workbook.

Variable xlsx_raises : list sheet → xlsx_call → option exn.

(** A call to the library: it raises or it goes through. *)
Definition attempt (workbook : list sheet) (worksheet : option sheet)
  (c : xlsx_call) : result unit :=
  match xlsx_raises (workbook ++ option_list worksheet) c with
  | Some e => Raise e
  | None => Ok ()
  end.

(** One iteration of the loop of [save_to_excel], on the workbook, the
    variable [worksheet] and the variable [row]. *)
Definition save_step (tabulation : bool) (record : row)
  (workbook : list sheet) (worksheet : option sheet) (row : Z)
  : result (list sheet * option sheet * Z) :=
  let col := 0 in
  let tab_level := if tabulation then col + 3 * level_of record else col in
  '(workbook, worksheet, row) ←
    (if bool_decide (level_of record = 0) then
       workbook ←
         match worksheet with
         | Some ws =>
             _ ← attempt workbook (Some ws) (on_worksheet autofit);
             mret (workbook ++ [called autofit ws])
         | None => mret workbook
         end;
       _ ← attempt workbook None (add_worksheet (field_name record));
       mret (workbook, Some (Sheet (field_name record) []), 0)
     else mret (workbook, worksheet, row));
  match worksheet with
  | None => Raise unbound_worksheet
  | Some ws =>
      let c := write row tab_level (field_level record) in
      _ ← attempt workbook (Some ws) (on_worksheet c);
      let ws := called c ws in
      let c := write row (tab_level + 1) (field_id record) in
      _ ← attempt workbook (Some ws) (on_worksheet c);
      let ws := called c ws in
      let c := write row (tab_level + 2) (field_name record) in
      _ ← attempt workbook (Some ws) (on_worksheet c);
      let ws := called c ws in
      mret (workbook, Some ws, row + 1)
  end.

Fixpoint save_loop (tabulation : bool) (catalogue : list row)
  (workbook : list sheet) (worksheet : option sheet) (row : Z)
  : result (list sheet * option sheet * Z) :=
  match catalogue with
  | [] => Ok (workbook, worksheet, row)
  | record :: rest =>
      match save_step tabulation record workbook worksheet row with
      | Ok (workbook, worksheet, row) =>
          save_loop tabulation rest workbook worksheet row
      | Raise e => Raise e
      end
  end.

Variable path_join : string → string → string.
Variable strftime : date → string.
Variable directory : string.
Variable run_date : date.

(** [save_to_excel]: the path of the file and the worksheets of the
    workbook at [close]. *)
Definition save_to_excel (file_name : string) (catalogue : list row)
  (tabulation : bool) : result (string * list sheet) :=
  let result_path :=
    path_join directory file_name +:+ "_" +:+ strftime run_date +:+ ".xlsx" in
  '(workbook, worksheet, _) ← save_loop tabulation catalogue [] None 0;
  match worksheet with
  | None => Raise unbound_worksheet
  | Some ws =>
      _ ← attempt workbook (Some ws) (on_worksheet autofit);
      let workbook := workbook ++ [called autofit ws] in
      _ ← attempt workbook None close;
      mret (result_path, workbook)
  end.

(** [run_parser]: the copy of the catalogue, the walk, the export.  The
    result comes with the local copy as the run leaves it. *)
Definition run_parser (fromtimestamp : Z → date)
  (aio_req : nat → string → reply) (remote : exn + list category) (now : Q)
  (tabulation : bool) (local_catalogue : option (file (list category)))
  : result (string * list sheet) * option (file (list category)) :=
  match download_current_catalogue fromtimestamp run_date remote now local_catalogue with
  | (Raise e, local_catalogue, _) => (Raise e, local_catalogue)
  | (Ok _, local_catalogue, _) =>
      match local_catalogue with
      | None => (Raise (OtherError "FileNotFoundError"), local_catalogue)
      | Some f =>
          match process_catalogue aio_req (content f) with
          | Raise e => (Raise e, local_catalogue)
          | Ok processed_catalogue =>
              (save_to_excel "Result" processed_catalogue tabulation,
               local_catalogue)
          end
      end
  end.

End Workbook.

(** The three cells of a record in row [row]. *)
Definition cells (tabulation : bool) (record : row) (row : Z) : list call :=
  let tab_level := if tabulation then 3 * level_of record else 0 in
  [write row tab_level (field_level record);
   write row (tab_level + 1) (field_id record);
   write row (tab_level + 2) (field_name record)].

(** The cells of a list of records in consecutive rows from [row] on. *)
Fixpoint cells_from (tabulation : bool) (records : list row) (row : Z) : list call :=
  match records with
  | [] => []
  | record :: rest => cells tabulation record row ++ cells_from tabulation rest (row + 1)
  end.

(** The worksheet of a group of records: named after the first, holding
    the records of the group from row 0 on, fitted at the end. *)
Definition sheet_of (tabulation : bool) (group : list row) : sheet :=
  Sheet (from_option field_name JNull (head group))
            (cells_from tabulation group 0 ++ [autofit]).

(** A group is a record of level 0 followed by records of other levels. *)
Definition is_group (group : list row) : Prop :=
  ∃ first rest, group = first :: rest ∧ level_of first = 0 ∧
                Forall (λ r, level_of r ≠ 0) rest.

(** The records of level other than 0 at the head of a list, and the
    groups after them. *)
Fixpoint chunks (catalogue : list row) : list row * list (list row) :=
  match catalogue with
  | [] => ([], [])
  | record :: rest =>
      let '(orphans, groups) := chunks rest in
      if bool_decide (level_of record = 0) then ([], (record :: orphans) :: groups)
      else (record :: orphans, groups)
  end.

(** A call without its column. *)
Definition without_column (c : call) : option (Z * json) :=
  match c with
  | write row _ value => Some (row, value)
  | autofit => None
  end.

(** The position of a call that writes a cell. *)
Definition position (c : call) : option (Z * Z) :=
  match c with
  | write row col _ => Some (row, col)
  | autofit => None
  end.

(** The names of the worksheets and what is written row by row, without
    the columns. *)
Definition plain (workbook : list sheet) : list (json * list (Z * json)) :=
  (λ ws, (title ws, omap without_column (calls ws))) <$> workbook.

Definition in_first_columns (c : call) : Prop :=
  match c with
  | write _ col _ => 0 ≤ col ≤ 2
  | autofit => True
  end.

(** ** The calls of one export

    A call to the library comes with the worksheets of the workbook at
    the time of the call, the current one last, as [attempt] passes them. *)

(** The first exception that the library raises for a list of calls, if
    any. *)
Fixpoint first_error (xlsx_raises : list sheet → xlsx_call → option exn)
  (l : list (list sheet * xlsx_call)) : option exn :=
  match l with
  | [] => None
  | (workbook, c) :: rest =>
      match xlsx_raises workbook c with
      | Some e => Some e
      | None => first_error xlsx_raises rest
      end
  end.

(** The calls [cs] made one after the other on the worksheet [ws], when
    the worksheets [filled] are in the workbook before it. *)
Fixpoint on_sheet (filled : list sheet) (ws : sheet) (cs : list call)
  : list (list sheet * xlsx_call) :=
  match cs with
  | [] => []
  | c :: rest => (filled ++ [ws], on_worksheet c) :: on_sheet filled (called c ws) rest
  end.

(** The calls that add the worksheets [todo] to a workbook that holds
    the worksheets [filled], one worksheet after the other, each with the
    calls made on it, and then close the workbook. *)
Fixpoint workbook_calls (filled todo : list sheet) : list (list sheet * xlsx_call) :=
  match todo with
  | [] => [(filled, close)]
  | ws :: rest =>
      (filled, add_worksheet (title ws))
      :: on_sheet filled (Sheet (title ws) []) (calls ws)
      ++ workbook_calls (filled ++ [ws]) rest
  end.

(** The part of [save_to_excel] after the loop. *)
Definition save_end (xlsx_raises : list sheet → xlsx_call → option exn)
  (result_path : string) (r : result (list sheet * option sheet * Z))
  : result (string * list sheet) :=
  '(workbook, worksheet, _) ← r;
  match worksheet with
  | None => Raise unbound_worksheet
  | Some ws =>
      _ ← attempt xlsx_raises workbook (Some ws) (on_worksheet autofit);
      let workbook := workbook ++ [called autofit ws] in
      _ ← attempt xlsx_raises workbook None close;
      mret (result_path, workbook)
  end.

(** A library that refuses a second worksheet of the same name, as
    xlsxwriter does, and raises nothing else. *)
Definition sheet_names (workbook : list sheet) : list string :=
  omap (λ ws, match title ws with JStr s => Some s | _ => None end) workbook.

Definition duplicate_worksheet_name : exn := OtherError "DuplicateWorksheetName".

Definition refuses_duplicates : list sheet → xlsx_call → option exn :=
  λ workbook c,
    match c with
    | add_worksheet (JStr s) =>
        if bool_decide (s ∈ sheet_names workbook)
        then Some duplicate_worksheet_name else None
    | _ => None
    end.

Definition row_R : row := Entry "R" "/r" 5 "q5" 0 130090.

(** ** The prompt of the script

    [answers] are the lines that [input] reads, in order; the result is
    the argument of [run_parser], or [None] when the lines run out (then
    [input] raises EOFError). *)

Definition yes_answers : list string := ["y"; "Y"; "yes"; "Yes"].
Definition valid_answers : list string :=
  ["y"; "Y"; "yes"; "Yes"; "n"; "no"; "N"; "No"].

Fixpoint ask (answers : list string) : option bool :=
  match answers with
  | [] => None
  | mode :: rest =>
      if bool_decide (mode ∈ valid_answers) then Some (bool_decide (mode ∈ yes_answers))
      else ask rest
  end.

(** ** Induction on categories *)

Lemma category_induction (P : category → Prop) :
  (∀ c, Forall P (children c) → P c) → ∀ c, P c.
Proof.
  intros step. fix IH 1. intros c. apply step.
  destruct c as [? ? ? ? ? [cs|]]; [|constructor].
  change (Forall P cs). induction cs as [|c' cs' IHcs]; constructor.
  - apply IH.
  - apply IHcs.
Qed.

(** ** Rows *)

Lemma entry_well_formed c level :
  well_formed c = true → ∃ r, entry c level = Ok r ∧ augmented r = false ∧ level_of r = level.
Proof.
  destruct c as [[n|] [u|] s [q|] [i|] cs]; try discriminate. intros _.
  by eexists.
Qed.

Lemma entry_malformed c level :
  well_formed c = false → ∃ key, entry c level = Raise (KeyError key).
Proof.
  destruct c as [[n|] [u|] s [q|] [i|] cs]; try discriminate; intros _;
    by eexists.
Qed.

Lemma entry_Ok c level r :
  entry c level = Ok r →
  well_formed c = true ∧ augmented r = false ∧ level_of r = level ∧ is_Some (id c).
Proof.
  destruct c as [[n|] [u|] s [q|] [i|] cs]; try discriminate.
  intros [= <-]. by eauto.
Qed.

Lemma entry_Raise c level e : entry c level = Raise e → well_formed c = false.
Proof. destruct c as [[n|] [u|] s [q|] [i|] cs]; by try discriminate. Qed.

Lemma extend_nil st : extend [] st = st.
Proof. destruct st. unfold extend. simpl. by rewrite app_nil_r. Qed.

Lemma entries_app rows rows' : entries (rows ++ rows') = entries rows ++ entries rows'.
Proof. apply filter_app. Qed.

Lemma facet_augmented parent_name level info :
  Forall (λ r, augmented r = true) (facet parent_name level info).
Proof.
  unfold facet. destruct (getitem info "name"); [|done].
  destruct (getitem info "id"); [|done]. by repeat constructor.
Qed.

Lemma facets_augmented parent_name level response :
  Forall (λ r, augmented r = true) (facets parent_name level response).
Proof.
  unfold facets. repeat case_match; try done.
  apply Forall_flat_map, Forall_forall. intros info _. apply facet_augmented.
Qed.

Lemma entries_augmented rows :
  Forall (λ r, augmented r = true) rows → entries rows = [].
Proof.
  induction 1 as [|r rows Hr _ IH]; [done|].
  unfold entries in *. rewrite filter_cons_False; [done|congruence].
Qed.

Lemma entries_facets parent_name level response :
  entries (facets parent_name level response) = [].
Proof. apply entries_augmented, facets_augmented. Qed.

(** ** The equations of the walk

    One iteration of the loop does one of four things, according to the
    keys of the category; in each the local [level] is back at its value
    on entry when the iteration ends. *)

Section Walk.

Variable aio_req : nat → string → reply.

Lemma traverse_step_malformed c level st :
  well_formed c = false → traverse_step aio_req c level st = (Ok level, st).
Proof.
  intros [key Hkey]%(entry_malformed _ (level + 1)).
  destruct c; simpl in *. rewrite Hkey. do 2 f_equal. lia.
Qed.

Lemma traverse_step_childs c level st r cs :
  entry c (level + 1) = Ok r → childs c = Some cs →
  traverse_step aio_req c level st
  = returning level (traverse_json aio_req cs (level + 1) (append r st)).
Proof.
  intros Hr Hcs. destruct c; simpl in *. rewrite Hr. subst.
  change (fix loop (parent_category : list category) (level : Z) (st : state) :=
            match parent_category with
            | [] => (Ok (), st)
            | c :: rest =>
                match traverse_step aio_req c level st with
                | (Ok level, st) => loop rest level st
                | (Raise e, st) => (Raise e, st)
                end
            end) with (traverse_json aio_req).
  destruct (traverse_json _ _ _ _) as [[[]|e] st']; simpl; [|done].
  do 2 f_equal. lia.
Qed.

Lemma traverse_step_redirect c level st r :
  entry c (level + 1) = Ok r → childs c = None → id c = Some redirect_id →
  traverse_step aio_req c level st = (Ok level, append r st).
Proof.
  intros Hr Hcs Hid. destruct c; simpl in *. rewrite Hr. subst. simpl.
  do 2 f_equal. lia.
Qed.

Lemma traverse_step_leaf c level st r i :
  entry c (level + 1) = Ok r → childs c = None → id c = Some i →
  i ≠ redirect_id →
  traverse_step aio_req c level st
  = returning level (node_json aio_req c (level + 2) (append r st)).
Proof.
  intros Hr Hcs Hid Hi. destruct c; simpl in *. rewrite Hr. subst. simpl.
  rewrite bool_decide_true by done.
  replace (level + 1 + 1) with (level + 2) by lia.
  destruct (node_json _ _ _ _) as [[[]|e] st']; simpl; [|done].
  do 2 f_equal. lia.
Qed.

Lemma traverse_json_cons c rest level st :
  traverse_json aio_req (c :: rest) level st
  = match traverse_step aio_req c level st with
    | (Ok level, st) => traverse_json aio_req rest level st
    | (Raise e, st) => (Raise e, st)
    end.
Proof. done. Qed.

End Walk.

(** ** What a run appends *)

Lemma reachable_eq depth c :
  reachable depth c
  = if well_formed c then (depth, c) :: flat_map (reachable (depth + 1)) (children c)
    else [].
Proof. destruct c as [? ? ? ? ? [cs|]]; simpl; by case_match. Qed.

Lemma nodes_eq depth c :
  nodes depth c = (depth, c) :: flat_map (nodes (depth + 1)) (children c).
Proof. by destruct c as [? ? ? ? ? [cs|]]. Qed.

Lemma rows_of_app l l' : rows_of (l ++ l') = rows_of l ++ rows_of l'.
Proof. apply flat_map_app. Qed.

Lemma rows_of_reachable depth c r :
  entry c depth = Ok r →
  rows_of (reachable depth c)
  = r :: rows_of (flat_map (reachable (depth + 1)) (children c)).
Proof.
  intros Hr. rewrite reachable_eq.
  destruct (entry_Ok _ _ _ Hr) as [-> _]. unfold rows_of at 1. simpl.
  by rewrite Hr.
Qed.

Lemma rows_of_unreachable depth c :
  well_formed c = false → rows_of (reachable depth c) = [].
Proof. intros Hc. by rewrite reachable_eq, Hc. Qed.

Section Appended.

Variable aio_req : nat → string → reply.

Lemma traverse_step_view c level st :
  step_view aio_req c level st (traverse_step aio_req c level st).
Proof.
  destruct (entry c (level + 1)) as [r|e] eqn:Hr.
  - destruct (entry_Ok _ _ _ Hr) as (_ & _ & _ & [i Hi]).
    destruct (childs c) as [cs|] eqn:Hcs.
    + erewrite traverse_step_childs by done. by econstructor.
    + destruct (decide (i = redirect_id)) as [->|Hne].
      * erewrite traverse_step_redirect by done. by econstructor.
      * erewrite traverse_step_leaf by done. by econstructor.
  - apply entry_Raise in Hr. rewrite traverse_step_malformed by done.
    by constructor.
Qed.

Lemma returning_Ok level r l st :
  returning level r = (Ok l, st) → l = level ∧ r = (Ok (), st).
Proof. destruct r as [[[]|e] st']; simpl; naive_solver. Qed.

Lemma returning_Raise level r e st :
  returning level r = (Raise e, st) → r = (Raise e, st).
Proof. destruct r as [[[]|e'] st']; simpl; naive_solver. Qed.

(** The facet lookup appends augmented rows only, whatever its outcome. *)
Lemma node_json_entries c level st r st' :
  node_json aio_req c level st = (r, st') →
  entries (flattened_catalogue st') = entries (flattened_catalogue st).
Proof.
  unfold node_json. intros H.
  repeat case_match; simplify_eq; simpl; try done.
  rewrite entries_app, entries_facets. apply app_nil_r.
Qed.

(** A step that returns leaves [level] as it found it and has appended,
    among the rows that are not augmented, those of the reachable nodes
    of its subtree, in pre-order. *)
Lemma traverse_step_entries c :
  ∀ level st l st',
    traverse_step aio_req c level st = (Ok l, st') →
    l = level ∧
    entries (flattened_catalogue st')
    = entries (flattened_catalogue st) ++ rows_of (reachable (level + 1) c).
Proof.
  induction c as [c IH] using category_induction. intros level st l st'.
  destruct (traverse_step_view c level st) as [Hc|r cs Hr Hcs|r Hr Hcs Hid|r i Hr Hcs Hid Hi].
  - intros [= <- <-]. by rewrite rows_of_unreachable, app_nil_r.
  - intros [-> Hcall]%returning_Ok. split; [done|].
    rewrite (rows_of_reachable _ _ _ Hr).
    unfold children in *. rewrite Hcs in *.
    assert (Hloop : ∀ level st st',
      traverse_json aio_req cs level st = (Ok (), st') →
      entries (flattened_catalogue st')
      = entries (flattened_catalogue st)
        ++ rows_of (flat_map (reachable (level + 1)) cs)).
    { clear -IH. induction IH as [|c' cs' Hc' _ IHcs]; intros level st st'.
      - intros [= <-]. by rewrite app_nil_r.
      - rewrite traverse_json_cons.
        destruct (traverse_step aio_req c' level st) as [[l|e] st1] eqn:Hstep; [|done].
        destruct (Hc' _ _ _ _ Hstep) as [-> Heq1]. intros Hrest.
        rewrite (IHcs _ _ _ Hrest), Heq1. simpl.
        by rewrite rows_of_app, (assoc_L (++)). }
    rewrite (Hloop _ _ _ Hcall). simpl. rewrite entries_app.
    destruct (entry_Ok _ _ _ Hr) as (_ & Hnot & _).
    unfold entries at 2. rewrite filter_cons_True by done.
    by rewrite filter_nil, <- (assoc_L (++)).
  - intros [= <- <-]. split; [done|].
    rewrite (rows_of_reachable _ _ _ Hr). unfold children. rewrite Hcs.
    simpl. rewrite entries_app.
    destruct (entry_Ok _ _ _ Hr) as (_ & Hnot & _).
    unfold entries at 2. by rewrite filter_cons_True by done.
  - intros [-> Hcall]%returning_Ok. split; [done|].
    rewrite (node_json_entries _ _ _ _ _ Hcall).
    rewrite (rows_of_reachable _ _ _ Hr). unfold children. rewrite Hcs.
    simpl. rewrite entries_app.
    destruct (entry_Ok _ _ _ Hr) as (_ & Hnot & _).
    unfold entries at 2. by rewrite filter_cons_True by done.
Qed.

Lemma traverse_json_entries cs :
  ∀ level st st',
    traverse_json aio_req cs level st = (Ok (), st') →
    entries (flattened_catalogue st')
    = entries (flattened_catalogue st)
      ++ rows_of (flat_map (reachable (level + 1)) cs).
Proof.
  induction cs as [|c cs IH]; intros level st st'.
  - intros [= <-]. by rewrite app_nil_r.
  - rewrite traverse_json_cons.
    destruct (traverse_step aio_req c level st) as [[l|e] st1] eqn:Hstep; [|done].
    destruct (traverse_step_entries _ _ _ _ _ Hstep) as [-> Heq1]. intros Hrest.
    rewrite (IH _ _ _ Hrest), Heq1. simpl.
    by rewrite rows_of_app, (assoc_L (++)).
Qed.

Lemma process_catalogue_entries catalogue rows :
  process_catalogue aio_req catalogue = Ok rows →
  entries rows = rows_of (flat_map (reachable 0) catalogue).
Proof.
  unfold process_catalogue.
  destruct (traverse_json _ _ _ _) as [[[]|e] st] eqn:Hrun; [|done].
  intros [= <-]. by rewrite (traverse_json_entries _ _ _ _ Hrun).
Qed.

End Appended.

(** ** Nodes that are skipped, runs that return *)

Section Returns.

Variable aio_req : nat → string → reply.

Lemma traverse_step_level c level st l st' :
  traverse_step aio_req c level st = (Ok l, st') → l = level.
Proof.
  destruct (traverse_step_view aio_req c level st); intros Hrun.
  - by simplify_eq.
  - by apply returning_Ok in Hrun as [-> _].
  - by simplify_eq.
  - by apply returning_Ok in Hrun as [-> _].
Qed.

(** A node without one of the required keys is passed over: the walk of
    its siblings is the walk of the list without it. *)
Lemma traverse_json_skip before c after level st :
  well_formed c = false →
  traverse_json aio_req (before ++ c :: after) level st
  = traverse_json aio_req (before ++ after) level st.
Proof.
  intros Hc. revert level st.
  induction before as [|c' before IH]; intros level st; simpl.
  - by rewrite traverse_step_malformed.
  - destruct (traverse_step aio_req c' level st) as [[l|e] st1]; [|done].
    apply IH.
Qed.

Hypothesis aio_req_handled : ∀ n u, handled (aio_req n u).

Lemma node_json_returns c level st r :
  entry c level = Ok r → is_Some (shard c) →
  ∃ st', node_json aio_req c (level + 1) st = (Ok (), st').
Proof.
  intros Hr [s Hs]. unfold node_json. rewrite Hs.
  destruct c as [[n|] [u|] ? [q|] [i|] cs]; try done. simpl.
  pose proof (aio_req_handled (length (requests st)) (url_loc s q)) as H.
  destruct (aio_req _ _) as [response|[]]; try done; by eexists.
Qed.

Lemma traverse_step_returns c :
  ∀ level st,
    Forall (λ dc, routable dc.2) (reachable (level + 1) c) →
    ∃ st', traverse_step aio_req c level st = (Ok level, st').
Proof.
  induction c as [c IH] using category_induction. intros level st.
  destruct (traverse_step_view aio_req c level st)
    as [Hc|r cs Hr Hcs|r Hr Hcs Hid|r i Hr Hcs Hid Hi]; try by eexists.
  - rewrite reachable_eq. destruct (entry_Ok _ _ _ Hr) as [-> _].
    intros [_ Hsub]%Forall_cons.
    unfold children in *. rewrite Hcs in *.
    assert (Hloop : ∀ level st,
      Forall (λ dc, routable dc.2) (flat_map (reachable (level + 1)) cs) →
      ∃ st', traverse_json aio_req cs level st = (Ok (), st')).
    { clear -IH. induction IH as [|c' cs' Hc' _ IHcs]; intros level st Hsub.
      - by eexists.
      - simpl in Hsub. apply Forall_app in Hsub as [Hhead Hrest].
        rewrite traverse_json_cons.
        destruct (Hc' level st Hhead) as [st1 ->]. by apply IHcs. }
    destruct (Hloop (level + 1) (append r st) Hsub) as [st' ->]. by eexists.
  - rewrite reachable_eq. destruct (entry_Ok _ _ _ Hr) as [-> _].
    intros [Hroot _]%Forall_cons.
    destruct (node_json_returns c (level + 1) (append r st) r) as [st' Hst'];
      [done|apply Hroot; simpl; [done|congruence]|].
    replace (level + 1 + 1) with (level + 2) in Hst' by lia.
    rewrite Hst'. by eexists.
Qed.

Lemma traverse_json_returns cs :
  ∀ level st,
    Forall (λ dc, routable dc.2) (flat_map (reachable (level + 1)) cs) →
    ∃ st', traverse_json aio_req cs level st = (Ok (), st').
Proof.
  induction cs as [|c cs IH]; intros level st Hsub.
  - by eexists.
  - simpl in Hsub. apply Forall_app in Hsub as [Hhead Hrest].
    rewrite traverse_json_cons.
    destruct (traverse_step_returns c level st Hhead) as [st1 ->]. by apply IH.
Qed.

(** The run returns a list when no reachable leaf lacks [shard] and the
    network raises nothing but the two handled exceptions. *)
Lemma process_catalogue_returns catalogue :
  Forall (λ dc, routable dc.2) (flat_map (reachable 0) catalogue) →
  ∃ rows, process_catalogue aio_req catalogue = Ok rows.
Proof.
  intros Hsub. unfold process_catalogue.
  destruct (traverse_json_returns catalogue (-1) (State [] []) Hsub) as [st ->].
  by eexists.
Qed.

End Returns.

(** The nodes that a run reaches are well formed, so each has its row. *)
Lemma reachable_well_formed c :
  ∀ depth, Forall (λ dc, well_formed dc.2 = true) (reachable depth c).
Proof.
  induction c as [c IH] using category_induction. intros depth.
  rewrite reachable_eq. destruct (well_formed c) eqn:Hc; [|done].
  constructor; [done|].
  apply Forall_flat_map. eapply Forall_impl; [exact IH|]. naive_solver.
Qed.

Lemma rows_of_levels l :
  Forall (λ dc, well_formed dc.2 = true) l → level_of <$> rows_of l = l.*1.
Proof.
  induction 1 as [|[d c] l Hc _ IH]; [done|].
  unfold rows_of in *. simpl in *. rewrite fmap_app, IH.
  destruct (entry_well_formed c d Hc) as (r & -> & _ & Hlevel). simpl.
  by rewrite Hlevel.
Qed.

Lemma flat_map_facet parent_name level items :
  flat_map (facet parent_name level) items = omap (item_row parent_name level) items.
Proof.
  induction items as [|item items IH]; [done|]. simpl. rewrite IH.
  unfold facet, item_row, getitem. destruct item; try done.
  destruct (m !! "name"), (m !! "id"); done.
Qed.

Lemma facets_no_facets parent_name level response :
  no_facets (Json response) → facets parent_name level response = [].
Proof.
  unfold facets. inversion 1 as [| |? group label Hgroup Hname Hlabel|? data Hdata Hfilters];
    subst.
  - rewrite Hgroup. simpl. rewrite Hname.
    destruct label; simpl; try done.
    rewrite bool_decide_false; [done|congruence].
  - unfold first_group. rewrite Hdata. simpl. by rewrite Hfilters.
Qed.

(** ** The leaf without [shard], the copy that is kept *)

(** At a well-formed childless node without [shard] the row is appended
    with the default, then the KeyError of [node_json] leaves the walk. *)
Lemma traverse_step_missing_shard (aio_req : nat → string → reply) c level st r :
  entry c (level + 1) = Ok r → childs c = None → id c ≠ Some redirect_id →
  shard c = None →
  traverse_step aio_req c level st = (Raise (KeyError "shard"), append r st).
Proof.
  intros Hr Hcs Hne Hs.
  destruct (entry_Ok _ _ _ Hr) as (_ & _ & _ & [i Hid]).
  assert (i ≠ redirect_id) by congruence.
  erewrite traverse_step_leaf by done.
  unfold node_json. rewrite Hs. by destruct c as [[n|] ? ? ? ? ?].
Qed.

Lemma entry_default_shard c level r :
  entry c level = Ok r → shard c = None →
  ∃ n u q i, r = Entry n u default_shard q level i.
Proof.
  destruct c as [[n|] [u|] s [q|] [i|] cs]; try discriminate.
  simpl. intros [= <-] ->. by eauto.
Qed.

Section Cache_test.

Context {doc : Type}.
Variable fromtimestamp : Z → date.
Variable run_date : date.

Lemma must_download_true (local_catalogue : option (file doc)) :
  must_download fromtimestamp run_date local_catalogue = true ↔
  local_catalogue = None ∨
  ∃ f, local_catalogue = Some f ∧ fromtimestamp (int (getmtime f)) > run_date.
Proof.
  destruct local_catalogue as [f|]; simpl.
  - rewrite bool_decide_eq_true. split.
    + intros Hlater. right. by exists f.
    + intros [Hnone|(f' & [= <-] & Hlater)]; [discriminate Hnone|exact Hlater].
  - split; [by left|done].
Qed.

(** A copy that is older than the run date is kept as it is, and the
    server is not asked. *)
Lemma older_copy_kept (f : file doc) remote now :
  fromtimestamp (int (getmtime f)) < run_date →
  download_current_catalogue fromtimestamp run_date remote now (Some f)
  = (Ok (), Some f, false).
Proof.
  intros Hold. unfold download_current_catalogue. simpl.
  rewrite bool_decide_false; [done|lia].
Qed.

End Cache_test.

(** ** The scenario of the design document *)

Example scenario_without_facet :
  process_catalogue (always (Json response_empty)) [node_A] = Ok [row_A; row_B 1].
Proof. reflexivity. Qed.

Example scenario_with_facet :
  process_catalogue (always (Json response_X)) [node_A]
  = Ok [row_A; row_B 1; row_X 2].
Proof. reflexivity. Qed.

Example scenario_with_dropped_connection :
  process_catalogue (inject 0 (always (Json response_X))) [node_A]
  = Ok [row_A; row_B 1].
Proof. reflexivity. Qed.

Example scenario_with_other_error :
  traverse_json (always (Raises (OtherError "TimeoutError"))) [node_A; leaf_B]
    (-1) (State [] [])
  = (Raise (OtherError "TimeoutError"), State [row_A; row_B 1] [url_B]).
Proof. reflexivity. Qed.

Example chars_of_label : length (chars category_label) = 9%nat.
Proof. reflexivity. Qed.

Example url_of_B :
  url_B = "https://catalog.wb.ru/catalog/2//v4/filters?appType=1&q2&curr=rub&dest=-8144334&spp=30".
Proof. reflexivity. Qed.

(** ** The properties of the design document *)

(** C1 as the design document words it, refuted: the pre-order list of the
    well-formed nodes of a tree contains the well-formed child of a parent
    without a name, and the output does not. *)
Lemma well_formed_preorder_refuted :
  ¬ ∀ (aio_req : nat → string → reply) catalogue rows,
      process_catalogue aio_req catalogue = Ok rows →
      entries rows = rows_of (flat_map (nodes 0) catalogue).
Proof.
  intros H.
  specialize (H (always (Raises ServerDisconnectedError)) [nameless_parent] [] eq_refl).
  vm_compute in H. discriminate H.
Qed.

(** C1, amended: when the run returns, its rows without the augmented ones
    are the rows of the nodes that are well formed together with all their
    ancestors, in pre-order (a node, then its subtree, then its next
    sibling) and in the order of the input. *)
Theorem flatten_preorder (aio_req : nat → string → reply) catalogue rows :
  process_catalogue aio_req catalogue = Ok rows →
  entries rows = rows_of (flat_map (reachable 0) catalogue).
Proof. apply process_catalogue_entries. Qed.

Lemma flatten_preorder_witness :
  process_catalogue (always (Json response_X)) [node_A; nameless_parent]
  = Ok [row_A; row_B 1; row_X 2] ∧
  entries [row_A; row_B 1; row_X 2]
  = rows_of (flat_map (reachable 0) [node_A; nameless_parent]).
Proof.
  split; [reflexivity|].
  apply (flatten_preorder (always (Json response_X))). reflexivity.
Defined.

(** C2 as the design document words it, refuted: a tree with one
    well-formed node, below a parent without an id, gives no row. *)
Lemma well_formed_count_refuted :
  ¬ ∀ (aio_req : nat → string → reply) catalogue rows,
      process_catalogue aio_req catalogue = Ok rows →
      length (entries rows)
      = length (filter (λ dc, well_formed dc.2 = true) (flat_map (nodes 0) catalogue)).
Proof.
  intros H.
  specialize (H (always (Raises ServerDisconnectedError)) [idless_parent] [] eq_refl).
  vm_compute in H. discriminate H.
Qed.

(** C2, amended: when the run returns, the rows that are not augmented are
    as many as the nodes that are well formed together with all their
    ancestors, and their levels are the depths of these nodes, in order:
    0 for the nodes of the input list, one more for each nesting. *)
Theorem flatten_count_and_levels (aio_req : nat → string → reply) catalogue rows :
  process_catalogue aio_req catalogue = Ok rows →
  length (entries rows) = length (flat_map (reachable 0) catalogue) ∧
  level_of <$> entries rows = (flat_map (reachable 0) catalogue).*1.
Proof.
  intros Hrun. apply process_catalogue_entries in Hrun.
  assert (level_of <$> entries rows = (flat_map (reachable 0) catalogue).*1) as Hlevels.
  { rewrite Hrun. apply rows_of_levels, Forall_flat_map, Forall_forall.
    intros c _. apply reachable_well_formed. }
  split; [|done].
  by rewrite <- (length_fmap level_of), Hlevels, length_fmap.
Qed.

Lemma flatten_count_and_levels_witness :
  process_catalogue (always (Json response_X)) [idless_parent; node_A]
  = Ok [row_A; row_B 1; row_X 2] ∧
  length (entries [row_A; row_B 1; row_X 2])
  = length (flat_map (reachable 0) [idless_parent; node_A]) ∧
  level_of <$> entries [row_A; row_B 1; row_X 2]
  = (flat_map (reachable 0) [idless_parent; node_A]).*1.
Proof.
  split; [reflexivity|].
  apply (flatten_count_and_levels (always (Json response_X))). reflexivity.
Defined.

(** C3 at a leaf without [shard]: the row with the default 99999 is
    appended, then [node_json] reads [category['shard']] and the KeyError
    ends the run, whatever the network replies; the sibling is not
    visited. *)
Theorem missing_shard_ends_run (aio_req : nat → string → reply) :
  process_catalogue aio_req [shardless_leaf; leaf_B] = Raise (KeyError "shard").
Proof. reflexivity. Qed.

(** C4: at a well-formed childless node whose facet document has a first
    group with the category label, the walk appends the row of the node and
    then, in the order of the items, one row for each item that has both
    [id] and [name], with the name of the node as [parent_name] and a level
    one above that of the node; it asks the network once. *)
Theorem augment_category_items (aio_req : nat → string → reply)
  c level st r i s q parent_name response group items :
  entry c (level + 1) = Ok r → childs c = None → id c = Some i → i ≠ redirect_id →
  name c = Some parent_name → shard c = Some s → query c = Some q →
  aio_req (length (requests st)) (url_loc s q) = Json response →
  first_group response = Some group →
  getitem group "name" = Some (JStr category_label) →
  getitem group "items" = Some (JArr items) →
  traverse_step aio_req c level st
  = (Ok level,
     State (flattened_catalogue st
            ++ r :: omap (item_row parent_name (level_of r + 1)) items)
           (requests st ++ [url_loc s q])).
Proof.
  intros Hr Hcs Hid Hi Hname Hshard Hquery Hreply Hgroup Hlabel Hitems.
  erewrite traverse_step_leaf by done.
  unfold node_json. rewrite Hname, Hshard, Hquery. simpl. rewrite Hreply.
  unfold facets. rewrite Hgroup. simpl. rewrite Hlabel, Hitems. simpl.
  rewrite flat_map_facet.
  destruct (entry_Ok _ _ _ Hr) as (_ & _ & -> & _).
  unfold extend. simpl. rewrite <- (assoc_L (++)). simpl.
  by replace (level + 1 + 1) with (level + 2) by lia.
Qed.

Lemma augment_category_items_witness :
  traverse_step (always (Json response_X)) leaf_B 0 (State [] [])
  = (Ok 0, State [row_B 1; row_X 2] [url_B]).
Proof.
  apply (augment_category_items (always (Json response_X)) leaf_B 0 (State [] [])
           (row_B 1) 2 2 "q2" "B" response_X group_X [item_X; item_without_name]);
    try reflexivity.
  unfold redirect_id. lia.
Defined.



(** C6: a well-formed childless node with the redirect id 130090 gets its
    own row and nothing else, and no request is made; at any other
    well-formed childless node the step is the row of the node followed by
    exactly one call of [node_json], which sends exactly one request when
    the node has its routing keys. *)
Theorem redirect_id_not_augmented (aio_req : nat → string → reply) c level st r :
  entry c (level + 1) = Ok r → childs c = None →
  (id c = Some redirect_id →
   traverse_step aio_req c level st = (Ok level, append r st)) ∧
  (id c ≠ Some redirect_id →
   traverse_step aio_req c level st
   = returning level (node_json aio_req c (level + 2) (append r st)) ∧
   ∀ s q, shard c = Some s → query c = Some q →
     requests (traverse_step aio_req c level st).2 = requests st ++ [url_loc s q]).
Proof.
  intros Hr Hcs. split; [by apply traverse_step_redirect|]. intros Hne.
  destruct (entry_Ok _ _ _ Hr) as (_ & _ & _ & [i Hid]).
  assert (i ≠ redirect_id) by congruence.
  erewrite traverse_step_leaf by done. split; [done|]. intros s q Hs Hq.
  unfold node_json. rewrite Hs, Hq.
  destruct c as [[n|] ? ? ? ? ?]; [|done]. simpl.
  by destruct (aio_req _ _) as [response|[]].
Qed.

Lemma redirect_id_not_augmented_witness :
  traverse_step (always (Json response_X)) redirect_leaf 0 (State [] [])
  = (Ok 0, State [Entry "R" "/r" 5 "q5" 1 130090] []).
Proof.
  apply (redirect_id_not_augmented (always (Json response_X)) redirect_leaf 0
           (State [] []) (Entry "R" "/r" 5 "q5" 1 130090)); reflexivity.
Defined.

(** C9 at a copy written the day before the run: the copy is kept and the
    server is not asked.  (The test of the source is "the date of the file
    is later than the run date".) *)
Theorem stale_catalogue_is_kept (remote : exn + list category) (now : Q) :
  download_current_catalogue utc_date 20000 remote now
    (Some (File (3455827201 # 2) [leaf_B]))
  = (Ok (), Some (File (3455827201 # 2) [leaf_B]), false).
Proof. reflexivity. Qed.

(** C10: a well-formed node whose [childs] is the empty list gets its own
    row and nothing else: the facet lookup needs the key to be absent. *)
Theorem empty_childs_not_augmented (aio_req : nat → string → reply) c level st r :
  entry c (level + 1) = Ok r → childs c = Some [] →
  traverse_step aio_req c level st = (Ok level, append r st).
Proof. intros Hr Hcs. by erewrite traverse_step_childs by done. Qed.

Lemma empty_childs_not_augmented_witness :
  traverse_step (always (Json response_X)) empty_parent 0 (State [] [])
  = (Ok 0, State [Entry "E" "/e" 6 "q6" 1 6] []).
Proof.
  apply (empty_childs_not_augmented (always (Json response_X)) empty_parent 0
           (State [] []) (Entry "E" "/e" 6 "q6" 1 6)); reflexivity.
Defined.

(** * Further properties *)

(** ** A rule for the walk

    A relation between the state before and the state after that is
    reflexive and transitive, holds when a row is appended, and holds
    across a facet lookup made just after the row of its category was
    appended, holds across the whole walk; the exceptions of the walk are
    those of the lookups. *)

Section Rule.

Variable aio_req : nat → string → reply.
Variable I : state → state → Prop.
Variable E : exn → Prop.

Hypothesis I_refl : ∀ st, I st st.
Hypothesis I_trans : ∀ a b c, I a b → I b c → I a c.
Hypothesis I_entry : ∀ c level r st, entry c level = Ok r → I st (append r st).
Hypothesis I_leaf : ∀ c level r st res st',
  entry c level = Ok r → augmentable c = true →
  node_json aio_req c (level + 1) (append r st) = (res, st') →
  I (append r st) st' ∧ ∀ e, res = Raise e → E e.

Lemma returning_inv {level : Z} {r : result unit * state} {res st} :
  returning level r = (res, st) →
  r.2 = st ∧ ∀ e, res = Raise e → r.1 = Raise e.
Proof.
  destruct r as [[[]|e'] st']; simpl; intros [= <- <-]; (split; [done|]).
  - intros e [=].
  - by intros e [= ->].
Qed.

Lemma traverse_step_rule c :
  ∀ level st res st',
    traverse_step aio_req c level st = (res, st') →
    I st st' ∧ ∀ e, res = Raise e → E e.
Proof.
  induction c as [c IH] using category_induction. intros level st res st'.
  destruct (traverse_step_view aio_req c level st)
    as [Hc|r cs Hr Hcs|r Hr Hcs Hid|r i Hr Hcs Hid Hi]; intros Hrun.
  - by simplify_eq.
  - unfold children in IH. rewrite Hcs in IH.
    assert (Hloop : ∀ level st res st',
      traverse_json aio_req cs level st = (res, st') →
      I st st' ∧ ∀ e, res = Raise e → E e).
    { clear -IH I_refl I_trans.
      induction IH as [|c' cs' Hc' _ IHcs]; intros level st res st'.
      - by intros [= <- <-].
      - rewrite traverse_json_cons.
        destruct (traverse_step aio_req c' level st) as [[l|e] st1] eqn:Hstep.
        + intros Hrest. destruct (Hc' _ _ _ _ Hstep) as [H1 _].
          destruct (IHcs _ _ _ _ Hrest) as [H2 HE]. eauto.
        + intros [= <- <-]. destruct (Hc' _ _ _ _ Hstep) as [H1 HE].
          split; [done|]. intros e0 [= <-]. by apply HE. }
    destruct (traverse_json aio_req cs (level + 1) (append r st)) as [res1 st1] eqn:Hcall.
    destruct (Hloop _ _ _ _ Hcall) as [H1 HE].
    apply returning_inv in Hrun as [<- Hres]. simpl in *. split.
    + eapply I_trans; [by eapply I_entry|done].
    + intros e ->. by apply HE, Hres.
  - simplify_eq. split; [by eapply I_entry|done].
  - destruct (node_json aio_req c (level + 2) (append r st)) as [res1 st1] eqn:Hcall.
    replace (level + 2) with (level + 1 + 1) in Hcall by lia.
    destruct (I_leaf c (level + 1) r st res1 st1) as [H1 HE]; [done| |done|].
    { unfold augmentable. rewrite Hcs, Hid. by apply bool_decide_eq_true. }
    apply returning_inv in Hrun as [<- Hres]. simpl in *. split.
    + eapply I_trans; [by eapply I_entry|done].
    + intros e ->. by apply HE, Hres.
Qed.

Lemma traverse_json_rule cs :
  ∀ level st res st',
    traverse_json aio_req cs level st = (res, st') →
    I st st' ∧ ∀ e, res = Raise e → E e.
Proof.
  induction cs as [|c cs IH]; intros level st res st'.
  - by intros [= <- <-].
  - rewrite traverse_json_cons.
    destruct (traverse_step aio_req c level st) as [[l|e] st1] eqn:Hstep.
    + intros Hrest. destruct (traverse_step_rule _ _ _ _ _ Hstep) as [H1 _].
      destruct (IH _ _ _ _ Hrest) as [H2 HE]. eauto.
    + intros [= <- <-]. destruct (traverse_step_rule _ _ _ _ _ Hstep) as [H1 HE].
      split; [done|]. intros e0 [= <-]. by apply HE.
Qed.

End Rule.

(** ** The rows already in the list *)

Lemma shift_append acc r st : shift acc (append r st) = append r (shift acc st).
Proof. unfold shift, append. simpl. by rewrite (assoc_L (++)). Qed.

Lemma framed_returning acc level x :
  framed acc (returning level x) = returning level (framed acc x).
Proof. by destruct x as [[[]|e] st]. Qed.

Section Frame.

Variable aio_req : nat → string → reply.
Variable acc : list row.

Lemma node_json_frame c level st :
  node_json aio_req c level (shift acc st) = framed acc (node_json aio_req c level st).
Proof.
  unfold node_json. destruct (name c), (shard c), (query c); try done. simpl.
  destruct (aio_req _ _) as [response|[]]; try done.
  unfold framed, shift, extend, requested. simpl. by rewrite (assoc_L (++)).
Qed.

Lemma traverse_step_frame c :
  ∀ level st,
    traverse_step aio_req c level (shift acc st)
    = framed acc (traverse_step aio_req c level st).
Proof.
  induction c as [c IH] using category_induction. intros level st.
  destruct (traverse_step_view aio_req c level st)
    as [Hc|r cs Hr Hcs|r Hr Hcs Hid|r i Hr Hcs Hid Hi].
  - by rewrite traverse_step_malformed.
  - erewrite traverse_step_childs by done.
    rewrite framed_returning, <- shift_append. f_equal.
    unfold children in IH. rewrite Hcs in IH.
    generalize (level + 1) (append r st). clear -IH.
    induction IH as [|c' cs' Hc' _ IHcs]; intros level st; [done|].
    rewrite !traverse_json_cons, Hc'.
    destruct (traverse_step aio_req c' level st) as [[l|e] st1]; simpl; [|done].
    apply IHcs.
  - erewrite traverse_step_redirect by done. by rewrite <- shift_append.
  - erewrite traverse_step_leaf by done.
    by rewrite framed_returning, <- shift_append, node_json_frame.
Qed.

Lemma traverse_json_frame cs :
  ∀ level st,
    traverse_json aio_req cs level (shift acc st)
    = framed acc (traverse_json aio_req cs level st).
Proof.
  induction cs as [|c cs IH]; intros level st; [done|].
  rewrite !traverse_json_cons, traverse_step_frame.
  destruct (traverse_step aio_req c level st) as [[l|e] st1]; simpl; [|done].
  apply IH.
Qed.

End Frame.

(** X1: the walk neither reads nor alters the rows that are in the list
    when it starts: started on a list that begins with [acc], it does what
    it does without [acc], with [acc] in front of the result, whether it
    returns or raises. *)
Theorem traverse_json_keeps_earlier_rows (aio_req : nat → string → reply)
  cs level acc rows reqs :
  traverse_json aio_req cs level (State (acc ++ rows) reqs)
  = framed acc (traverse_json aio_req cs level (State rows reqs)).
Proof. apply (traverse_json_frame aio_req acc cs level (State rows reqs)). Qed.

(** X2: the walk of two lists put end to end is the walk of the first
    followed, when that returns, by the walk of the second at the same
    level from the state the first has left; an exception of the first
    ends both. *)
Theorem traverse_json_app (aio_req : nat → string → reply) cs1 cs2 level st :
  traverse_json aio_req (cs1 ++ cs2) level st
  = match traverse_json aio_req cs1 level st with
    | (Ok _, st1) => traverse_json aio_req cs2 level st1
    | (Raise e, st1) => (Raise e, st1)
    end.
Proof.
  revert level st. induction cs1 as [|c cs1 IH]; intros level st; [done|].
  simpl. destruct (traverse_step aio_req c level st) as [[l|e] st1] eqn:Hstep; [|done].
  pose proof (traverse_step_level _ _ _ _ _ _ Hstep) as ->. apply IH.
Qed.

(** ** The requests of a run *)

Lemma node_json_requests (aio_req : nat → string → reply) c level st st' :
  node_json aio_req c level st = (Ok (), st') →
  ∃ u, url_of c = Some u ∧ requests st' = requests st ++ [u].
Proof.
  unfold node_json, url_of.
  destruct (name c) as [n|], (shard c) as [s|], (query c) as [q|]; try done.
  destruct (aio_req _ _) as [response|[]]; intros [= <-]; by eexists.
Qed.

Lemma lookups_app l l' : lookups (l ++ l') = lookups l ++ lookups l'.
Proof. unfold lookups. by rewrite filter_app, fmap_app. Qed.

Lemma traverse_step_requests (aio_req : nat → string → reply) c :
  ∀ level st l st',
    traverse_step aio_req c level st = (Ok l, st') →
    ∃ urls, requests st' = requests st ++ urls ∧
            lookups (reachable (level + 1) c) = Some <$> urls.
Proof.
  induction c as [c IH] using category_induction. intros level st l st'.
  destruct (traverse_step_view aio_req c level st)
    as [Hc|r cs Hr Hcs|r Hr Hcs Hid|r i Hr Hcs Hid Hi].
  - intros [= <- <-]. exists []. by rewrite app_nil_r, reachable_eq, Hc.
  - intros [-> Hcall]%returning_Ok.
    rewrite reachable_eq. destruct (entry_Ok _ _ _ Hr) as [-> _].
    unfold children in *. rewrite Hcs in *.
    assert (Hloop : ∀ level st st',
      traverse_json aio_req cs level st = (Ok (), st') →
      ∃ urls, requests st' = requests st ++ urls ∧
              lookups (flat_map (reachable (level + 1)) cs) = Some <$> urls).
    { clear -IH. induction IH as [|c' cs' Hc' _ IHcs]; intros level st st'.
      - intros [= <-]. exists []. by rewrite app_nil_r.
      - rewrite traverse_json_cons.
        destruct (traverse_step aio_req c' level st) as [[l|e] st1] eqn:Hstep; [|done].
        intros Hrest. pose proof (traverse_step_level _ _ _ _ _ _ Hstep) as ->.
        destruct (Hc' _ _ _ _ Hstep) as (urls1 & Hreq1 & Hurls1).
        destruct (IHcs _ _ _ Hrest) as (urls2 & Hreq2 & Hurls2).
        exists (urls1 ++ urls2). simpl.
        by rewrite Hreq2, Hreq1, lookups_app, Hurls1, Hurls2, fmap_app, (assoc_L (++)). }
    destruct (Hloop _ _ _ Hcall) as (urls & Hreq & Hurls). exists urls.
    split; [done|]. unfold lookups in *.
    rewrite filter_cons_False; [done|]. unfold augmentable. simpl. by rewrite Hcs.
  - intros [= <- <-]. exists []. rewrite app_nil_r. split; [done|].
    rewrite reachable_eq. destruct (entry_Ok _ _ _ Hr) as [-> _].
    unfold children, lookups. rewrite Hcs. simpl.
    rewrite filter_cons_False; [done|]. unfold augmentable. simpl.
    rewrite Hcs, Hid. by rewrite bool_decide_false by (intros Hne; by apply Hne).
  - intros [-> Hcall]%returning_Ok.
    destruct (node_json_requests _ _ _ _ _ Hcall) as (u & Hu & Hreq).
    exists [u]. split; [done|].
    rewrite reachable_eq. destruct (entry_Ok _ _ _ Hr) as [-> _].
    unfold children, lookups. rewrite Hcs. simpl.
    rewrite filter_cons_True; [by rewrite filter_nil; simpl; rewrite Hu|].
    unfold augmentable. simpl. rewrite Hcs, Hid. by apply bool_decide_eq_true.
Qed.

(** X3: a walk that returns has sent exactly one request for each category
    that it reached and that has no [childs] and another id than 130090,
    to the address made of the [shard] and [query] of that category (both
    are there), in pre-order; it has sent no other request. *)
Theorem traverse_json_requests (aio_req : nat → string → reply) cs level st st' :
  traverse_json aio_req cs level st = (Ok (), st') →
  ∃ urls, requests st' = requests st ++ urls ∧
          lookups (flat_map (reachable (level + 1)) cs) = Some <$> urls.
Proof.
  revert level st st'. induction cs as [|c cs IH]; intros level st st'.
  - intros [= <-]. exists []. by rewrite app_nil_r.
  - rewrite traverse_json_cons.
    destruct (traverse_step aio_req c level st) as [[l|e] st1] eqn:Hstep; [|done].
    intros Hrest. pose proof (traverse_step_level _ _ _ _ _ _ Hstep) as ->.
    destruct (traverse_step_requests _ _ _ _ _ _ Hstep) as (urls1 & Hreq1 & Hurls1).
    destruct (IH _ _ _ Hrest) as (urls2 & Hreq2 & Hurls2).
    exists (urls1 ++ urls2). simpl.
    by rewrite Hreq2, Hreq1, lookups_app, Hurls1, Hurls2, fmap_app, (assoc_L (++)).
Qed.

Lemma traverse_json_requests_witness :
  ∃ urls,
    [url_B] = [] ++ urls ∧
    lookups (flat_map (reachable (-1 + 1)) [node_A; redirect_leaf; nameless_parent])
    = Some <$> urls.
Proof.
  apply (traverse_json_requests (always (Json response_X))
           [node_A; redirect_leaf; nameless_parent] (-1) (State [] [])
           (State (rows_AX ++ [Entry "R" "/r" 5 "q5" 0 130090]) [url_B])).
  reflexivity.
Defined.

(** ** Parents and levels of the augmented rows *)

Lemma nested_app owner rows rows' :
  nested owner (rows ++ rows')
  = nested owner rows && nested (last_owner owner rows) rows'.
Proof.
  revert owner. induction rows as [|[n u s q l i|p x l i] rows IH]; intros owner;
    simpl; [done|apply IH|].
  destruct owner as [[n lo]|]; [|done]. by rewrite IH, andb_assoc.
Qed.

Lemma last_owner_app owner rows rows' :
  last_owner owner (rows ++ rows') = last_owner (last_owner owner rows) rows'.
Proof.
  revert owner. induction rows as [|[n u s q l i|p x l i] rows IH]; intros owner;
    simpl; [done|apply IH|apply IH].
Qed.

Lemma facets_shape parent_name level response :
  Forall (λ r, ∃ x i, r = Facet parent_name x level i)
         (facets parent_name level response).
Proof.
  unfold facets. repeat case_match; try done.
  apply Forall_flat_map, Forall_forall. intros info _. unfold facet.
  repeat case_match; by eauto.
Qed.

Lemma nested_facets parent_name level response :
  nested (Some (parent_name, level)) (facets parent_name (level + 1) response) = true.
Proof.
  induction (facets_shape parent_name (level + 1) response) as [|r rows (x & i & ->) _ IH];
    [done|].
  simpl. rewrite IH. by rewrite bool_decide_true.
Qed.

Lemma node_json_nested (aio_req : nat → string → reply) c level r st res st' owner :
  entry c level = Ok r →
  node_json aio_req c (level + 1) (append r st) = (res, st') →
  nested owner (flattened_catalogue st) = true →
  nested owner (flattened_catalogue st') = true.
Proof.
  intros Hr Hrun Hst. unfold node_json in Hrun.
  destruct c as [[n|] [u|] s [q|] [i|] cs]; try done; simpl in *.
  injection Hr as <-.
  destruct s as [s|]; simpl in *;
    [|simplify_eq; simpl; by rewrite nested_app, Hst].
  assert (nested owner (flattened_catalogue st ++ [Entry n u s q level i]) = true)
    as Hone.
  { by rewrite nested_app, Hst. }
  destruct (aio_req _ _) as [response|[]]; simplify_eq; simpl; try done.
  rewrite nested_app, Hone, last_owner_app. simpl. apply nested_facets.
Qed.

Lemma traverse_json_nested (aio_req : nat → string → reply) cs level st res st' owner :
  traverse_json aio_req cs level st = (res, st') →
  nested owner (flattened_catalogue st) = true →
  nested owner (flattened_catalogue st') = true.
Proof.
  intros Hrun.
  eapply (traverse_json_rule aio_req
            (λ st st', ∀ owner, nested owner (flattened_catalogue st) = true →
                                nested owner (flattened_catalogue st') = true)
            (λ _, True)); [done|by eauto| | |exact Hrun].
  - clear. intros c level r st Hr owner Hst. simpl. rewrite nested_app, Hst.
    destruct (entry_Ok _ _ _ Hr) as (_ & Hnot & _). by destruct r.
  - clear. intros c level r st res st' Hr _ Hrun. split; [|done].
    intros owner Hst. simpl in Hst. rewrite nested_app in Hst.
    apply andb_true_iff in Hst as [Hst _].
    assert (nested owner (flattened_catalogue st') = true) as H'; [|done].
    by eapply node_json_nested.
Qed.

Lemma nested_rows_of_run (aio_req : nat → string → reply) catalogue rows :
  process_catalogue aio_req catalogue = Ok rows → nested None rows = true.
Proof.
  unfold process_catalogue.
  destruct (traverse_json aio_req _ _ _) as [[[]|e'] st] eqn:Hrun; [|done].
  intros [= <-]. by eapply traverse_json_nested.
Qed.

(** X5: in the list that [process_catalogue] returns, every augmented row
    comes after a catalogue row, with only augmented rows between the two;
    its [parent_name] is the [name] of that catalogue row and its [level]
    is one more than the level of that row. *)
Theorem process_catalogue_nested (aio_req : nat → string → reply) catalogue rows :
  process_catalogue aio_req catalogue = Ok rows → nested None rows = true.
Proof. apply nested_rows_of_run. Qed.

Lemma process_catalogue_nested_witness : nested None rows_AX = true.
Proof.
  apply (process_catalogue_nested (always (Json response_X)) [node_A]).
  reflexivity.
Defined.

(** ** The levels of the rows *)

Lemma reachable_depths c : ∀ depth, Forall (λ dc, depth ≤ dc.1) (reachable depth c).
Proof.
  induction c as [c IH] using category_induction. intros depth.
  rewrite reachable_eq. destruct (well_formed c); [|done].
  constructor; [done|]. apply Forall_flat_map.
  eapply Forall_impl; [exact IH|]. intros c' Hc'. simpl in Hc'.
  eapply Forall_impl; [apply Hc'|]. simpl. intros dc Hdc. lia.
Qed.

Lemma reachable_head depth cs dc rest :
  flat_map (reachable depth) cs = dc :: rest → dc.1 = depth.
Proof.
  induction cs as [|c cs IH]; [done|]. simpl. rewrite reachable_eq.
  destruct (well_formed c); [by intros [= <- _]|apply IH].
Qed.

Lemma entries_cons_entry n u s q l i rows :
  entries (Entry n u s q l i :: rows) = Entry n u s q l i :: entries rows.
Proof. unfold entries. by rewrite filter_cons_True. Qed.

Lemma entries_cons_facet p x l i rows :
  entries (Facet p x l i :: rows) = entries rows.
Proof. unfold entries. by rewrite filter_cons_False. Qed.

Lemma nested_levels rows :
  ∀ owner,
    nested owner rows = true →
    (∀ n l, owner = Some (n, l) → 0 ≤ l) →
    Forall (λ r, 0 ≤ level_of r) (entries rows) →
    Forall level_in_range rows.
Proof.
  induction rows as [|[n u s q l i|p x l i] rows IH]; intros owner Hnested Howner Hentries;
    [done| |].
  - rewrite entries_cons_entry in Hentries. apply Forall_cons in Hentries as [Hl Hrest].
    constructor; [done|]. apply (IH (Some (n, l))); [done| |done].
    by intros ? ? [= <- <-].
  - rewrite entries_cons_facet in Hentries. simpl in Hnested.
    destruct owner as [[n lo]|]; [|done].
    apply andb_true_iff in Hnested as [[_ ->]%bool_decide_eq_true Hrest].
    constructor; [|by eapply IH].
    unfold level_in_range. simpl. specialize (Howner n lo eq_refl). lia.
Qed.

Lemma levels_of_run (aio_req : nat → string → reply) catalogue rows :
  process_catalogue aio_req catalogue = Ok rows →
  Forall level_in_range rows ∧
  ∀ r rest, rows = r :: rest → augmented r = false ∧ level_of r = 0.
Proof.
  intros Hrun.
  pose proof (nested_rows_of_run _ _ _ Hrun) as Hnested.
  pose proof (process_catalogue_entries _ _ _ Hrun) as Hentries.
  assert (Hwf : Forall (λ dc, well_formed dc.2 = true) (flat_map (reachable 0) catalogue)).
  { apply Forall_flat_map, Forall_forall. intros c _. apply reachable_well_formed. }
  pose proof (rows_of_levels _ Hwf) as Hlevels. rewrite <- Hentries in Hlevels.
  split.
  - apply (nested_levels rows None); [done|done|].
    apply (Forall_fmap level_of (λ l, 0 ≤ l)). rewrite Hlevels.
    apply Forall_fmap, Forall_flat_map, Forall_forall. intros c _.
    apply (reachable_depths c 0).
  - intros r rest ->. destruct r as [n u s q l i|p x l i]; [|done].
    split; [done|]. rewrite entries_cons_entry in Hlevels. simpl in Hlevels.
    destruct (flat_map (reachable 0) catalogue) as [|dc l'] eqn:Hflat; [done|].
    injection Hlevels as -> _. by eapply reachable_head.
Qed.

(** X6: in the list that [process_catalogue] returns no level is negative,
    an augmented row has a level of 1 at least, and the first row, when
    there is one, is a catalogue row of level 0. *)
Theorem process_catalogue_levels (aio_req : nat → string → reply) catalogue rows :
  process_catalogue aio_req catalogue = Ok rows →
  Forall level_in_range rows ∧
  ∀ r rest, rows = r :: rest → augmented r = false ∧ level_of r = 0.
Proof. apply levels_of_run. Qed.

Lemma process_catalogue_levels_witness :
  Forall level_in_range rows_AX ∧
  ∀ r rest, rows_AX = r :: rest → augmented r = false ∧ level_of r = 0.
Proof.
  apply (process_catalogue_levels (always (Json response_X)) [node_A]).
  reflexivity.
Defined.

(** ** The shape of a facet document *)

Lemma flat_map_facet_strings parent_name level (l : list string) :
  flat_map (facet parent_name level) (JStr <$> l) = [].
Proof. by induction l. Qed.

Lemma eq_str_true v s : eq_str v s = true → v = JStr s.
Proof. destruct v; try done. simpl. by intros ->%bool_decide_eq_true. Qed.

(** X7: [node_json] takes rows from a facet document only when the first
    group of the document has the category label and a list as its items;
    the rows are then those of the items with both keys.  From a document
    of any other shape (no dict, no [data], no [filters], an empty list, a
    group without the label, items that are no list) it takes none. *)
Theorem facets_only_from_category_group parent_name level response :
  facets parent_name level response ≠ [] →
  ∃ group items,
    first_group response = Some group ∧
    getitem group "name" = Some (JStr category_label) ∧
    getitem group "items" = Some (JArr items) ∧
    facets parent_name level response = omap (item_row parent_name level) items.
Proof.
  unfold facets.
  destruct (first_group response) as [group|] eqn:Hgroup; [|done]. simpl.
  destruct (getitem group "name") as [label|] eqn:Hlabel; [|done].
  destruct (eq_str label category_label) eqn:Heq; [|done].
  apply eq_str_true in Heq as ->.
  destruct (getitem group "items") as [v|] eqn:Hitems; [|done]. simpl.
  destruct v as [| | | s | items | m]; simpl; try done.
  - by rewrite flat_map_facet_strings.
  - intros _. exists group, items. by rewrite flat_map_facet.
  - by rewrite flat_map_facet_strings.
Qed.

Lemma facets_only_from_category_group_witness :
  ∃ group items,
    first_group response_X = Some group ∧
    getitem group "name" = Some (JStr category_label) ∧
    getitem group "items" = Some (JArr items) ∧
    facets "B" 2 response_X = omap (item_row "B" 2) items.
Proof.
  apply (facets_only_from_category_group "B" 2 response_X).
  vm_compute. discriminate.
Defined.

(** ** The export *)

Lemma chunks_cons record rest :
  chunks (record :: rest)
  = if bool_decide (level_of record = 0)
    then ([], (record :: (chunks rest).1) :: (chunks rest).2)
    else (record :: (chunks rest).1, (chunks rest).2).
Proof. simpl. by destruct (chunks rest). Qed.

Lemma chunks_concat catalogue :
  (chunks catalogue).1 ++ concat (chunks catalogue).2 = catalogue.
Proof.
  induction catalogue as [|record rest IH]; [done|]. rewrite chunks_cons.
  case_bool_decide; simpl; by rewrite IH.
Qed.

Lemma chunks_groups catalogue :
  Forall (λ r, level_of r ≠ 0) (chunks catalogue).1 ∧
  Forall is_group (chunks catalogue).2.
Proof.
  induction catalogue as [|record rest [IH1 IH2]]; [done|]. rewrite chunks_cons.
  case_bool_decide; simpl; split; try done.
  - constructor; [|done]. by exists record, (chunks rest).1.
  - by constructor.
Qed.

Lemma chunks_head_zero catalogue :
  head (level_of <$> catalogue) = Some 0 → (chunks catalogue).1 = [].
Proof.
  destruct catalogue as [|record rest]; [done|]. rewrite chunks_cons.
  simpl. intros [= Hzero]. by rewrite bool_decide_true.
Qed.

(** The loop with a library that raises nothing. *)

Lemma save_step_cells tabulation record workbook ws row :
  level_of record ≠ 0 →
  save_step silent tabulation record workbook (Some ws) row
  = Ok (workbook,
        Some (Sheet (title ws) (calls ws ++ cells tabulation record row)),
        row + 1).
Proof.
  intros Hlevel. unfold save_step. rewrite bool_decide_false by done.
  unfold called, cells. simpl. rewrite <- !(assoc_L (++)). simpl.
  by destruct tabulation.
Qed.

Lemma save_step_new_sheet tabulation record workbook worksheet row :
  level_of record = 0 →
  save_step silent tabulation record workbook worksheet row
  = Ok (workbook ++ from_option (λ ws, [called autofit ws]) [] worksheet,
        Some (Sheet (field_name record) (cells tabulation record 0)),
        1).
Proof.
  intros Hlevel. unfold save_step. rewrite bool_decide_true by done.
  unfold called, cells. simpl.
  destruct worksheet as [ws|], tabulation; simpl; by rewrite ?app_nil_r.
Qed.

(** Once a worksheet is bound the loop ends with a worksheet bound, and
    the workbook at [close] is the one before, the current worksheet with
    the records that come before the next record of level 0, and one
    worksheet for each group after them. *)
Lemma save_loop_bound tabulation catalogue :
  ∀ workbook ws row,
    ∃ workbook' ws' row',
      save_loop silent tabulation catalogue workbook (Some ws) row
      = Ok (workbook', Some ws', row') ∧
      workbook' ++ [called autofit ws']
      = workbook
        ++ Sheet (title ws)
             (calls ws ++ cells_from tabulation (chunks catalogue).1 row ++ [autofit])
        :: (sheet_of tabulation <$> (chunks catalogue).2).
Proof.
  induction catalogue as [|record rest IH]; intros workbook ws row.
  - exists workbook, ws, row. split; [done|]. simpl. by destruct ws.
  - rewrite chunks_cons. simpl. case_bool_decide as Hlevel.
    + rewrite save_step_new_sheet by done. simpl.
      destruct (IH (workbook ++ [called autofit ws])
                   (Sheet (field_name record) (cells tabulation record 0)) 1)
        as (workbook' & ws' & row' & -> & Hclose).
      exists workbook', ws', row'. split; [done|]. rewrite Hclose.
      rewrite <- app_assoc. unfold sheet_of, called. simpl.
      by rewrite <- ?app_assoc.
    + rewrite save_step_cells by done.
      destruct (IH workbook
                   (Sheet (title ws) (calls ws ++ cells tabulation record row))
                   (row + 1))
        as (workbook' & ws' & row' & -> & Hclose).
      exists workbook', ws', row'. split; [done|]. rewrite Hclose. simpl.
      by rewrite <- !app_assoc.
Qed.

(** Whatever the library does: a run that returns made the calls of the
    run with the silent library. *)

Section Library.

Variable xlsx_raises : list sheet → xlsx_call → option exn.

Lemma attempt_Ok workbook worksheet c :
  attempt xlsx_raises workbook worksheet c = Ok () ∨
  ∃ e, attempt xlsx_raises workbook worksheet c = Raise e.
Proof. unfold attempt. destruct (xlsx_raises _ _); by eauto. Qed.

Lemma save_step_Ok tabulation record workbook worksheet row r :
  save_step xlsx_raises tabulation record workbook worksheet row = Ok r →
  save_step silent tabulation record workbook worksheet row = Ok r.
Proof.
  unfold save_step. simpl.
  case_bool_decide; destruct worksheet as [ws|]; simpl;
    repeat (match goal with
            | |- context [attempt xlsx_raises ?wb ?w ?c] =>
                destruct (attempt_Ok wb w c) as [->|[e ->]]; simpl; [|done]
            end);
    done.
Qed.

Lemma save_step_unbound tabulation record workbook row :
  level_of record ≠ 0 →
  save_step xlsx_raises tabulation record workbook None row = Raise unbound_worksheet.
Proof. intros Hlevel. unfold save_step. by rewrite bool_decide_false. Qed.

Lemma save_loop_Ok tabulation catalogue :
  ∀ workbook worksheet row r,
    save_loop xlsx_raises tabulation catalogue workbook worksheet row = Ok r →
    save_loop silent tabulation catalogue workbook worksheet row = Ok r.
Proof.
  induction catalogue as [|record rest IH]; intros workbook worksheet row r; [done|].
  simpl.
  destruct (save_step xlsx_raises _ _ _ _ _) as [[[workbook' worksheet'] row']|e] eqn:Hstep;
    [|done].
  rewrite (save_step_Ok _ _ _ _ _ _ Hstep). apply IH.
Qed.

Variable path_join : string → string → string.
Variable strftime : date → string.
Variable directory : string.
Variable run_date : date.

Lemma save_to_excel_Ok file_name catalogue tabulation r :
  save_to_excel xlsx_raises path_join strftime directory run_date
    file_name catalogue tabulation = Ok r →
  save_to_excel silent path_join strftime directory run_date
    file_name catalogue tabulation = Ok r.
Proof.
  unfold save_to_excel.
  destruct (save_loop xlsx_raises _ _ _ _ _) as [[[workbook [ws|]] row]|e] eqn:Hloop;
    simpl; try done.
  rewrite (save_loop_Ok _ _ _ _ _ _ Hloop). simpl.
  destruct (attempt_Ok workbook (Some ws) (on_worksheet autofit)) as [->|[e ->]];
    simpl; [|done].
  by destruct (attempt_Ok (workbook ++ [called autofit ws]) None close) as [->|[e ->]].
Qed.

Lemma save_to_excel_chunks file_name catalogue tabulation :
  head (level_of <$> catalogue) = Some 0 →
  save_to_excel silent path_join strftime directory run_date
    file_name catalogue tabulation
  = Ok (path_join directory file_name +:+ "_" +:+ strftime run_date +:+ ".xlsx",
        sheet_of tabulation <$> (chunks catalogue).2).
Proof.
  intros Hhead. pose proof (chunks_head_zero _ Hhead) as Horphans.
  destruct catalogue as [|record rest]; [done|].
  injection Hhead as Hlevel. rewrite chunks_cons in *.
  rewrite bool_decide_true in * by done. unfold save_to_excel. simpl.
  rewrite save_step_new_sheet by done. simpl.
  destruct (save_loop_bound tabulation rest []
              (Sheet (field_name record) (cells tabulation record 0)) 1)
    as (workbook' & ws' & row' & -> & Hclose).
  simpl. rewrite Hclose. by destruct tabulation.
Qed.

Lemma save_to_excel_unbound file_name catalogue tabulation :
  head (level_of <$> catalogue) ≠ Some 0 →
  save_to_excel xlsx_raises path_join strftime directory run_date
    file_name catalogue tabulation
  = Raise unbound_worksheet.
Proof.
  destruct catalogue as [|record rest]; [done|]. simpl. intros Hhead.
  unfold save_to_excel. simpl. rewrite save_step_unbound; [done|]. congruence.
Qed.

(** A run that returns started with a record of level 0 and gave the
    worksheets of the groups. *)
Lemma save_to_excel_returned file_name catalogue tabulation path workbook :
  save_to_excel xlsx_raises path_join strftime directory run_date
    file_name catalogue tabulation = Ok (path, workbook) →
  head (level_of <$> catalogue) = Some 0 ∧
  path = path_join directory file_name +:+ "_" +:+ strftime run_date +:+ ".xlsx" ∧
  workbook = sheet_of tabulation <$> (chunks catalogue).2.
Proof.
  intros Hsave.
  destruct (decide (head (level_of <$> catalogue) = Some 0)) as [Hhead|Hhead].
  - apply save_to_excel_Ok in Hsave. rewrite save_to_excel_chunks in Hsave by done.
    by simplify_eq.
  - by rewrite save_to_excel_unbound in Hsave.
Qed.

End Library.


(** ** The calls of a run, whatever the library does *)

Section Calls.

Variable xlsx_raises : list sheet → xlsx_call → option exn.

Lemma first_error_app l l' :
  first_error xlsx_raises (l ++ l')
  = match first_error xlsx_raises l with
    | Some e => Some e
    | None => first_error xlsx_raises l'
    end.
Proof.
  induction l as [|[workbook c] l IH]; [done|]. simpl.
  by destruct (xlsx_raises workbook c).
Qed.

Lemma on_sheet_app filled ws cs cs' :
  on_sheet filled ws (cs ++ cs')
  = on_sheet filled ws cs
    ++ on_sheet filled (Sheet (title ws) (calls ws ++ cs)) cs'.
Proof.
  revert ws. induction cs as [|c cs IH]; intros ws; simpl.
  - rewrite app_nil_r. by destruct ws.
  - rewrite IH. unfold called. simpl. by rewrite <- app_assoc.
Qed.

Lemma sheet_of_cons tabulation record rest :
  sheet_of tabulation (record :: rest)
  = Sheet (field_name record)
      (cells tabulation record 0 ++ cells_from tabulation rest 1 ++ [autofit]).
Proof. unfold sheet_of. simpl. by rewrite <- ?app_assoc. Qed.

(** A record of another level than 0: three cells on the bound
    worksheet. *)
Lemma save_step_writes tabulation record filled ws row :
  level_of record ≠ 0 →
  save_step xlsx_raises tabulation record filled (Some ws) row
  = match first_error xlsx_raises (on_sheet filled ws (cells tabulation record row)) with
    | Some e => Raise e
    | None => Ok (filled,
                  Some (Sheet (title ws) (calls ws ++ cells tabulation record row)),
                  row + 1)
    end.
Proof.
  intros Hlevel. unfold save_step, attempt, cells, called.
  rewrite bool_decide_false by done.
  destruct tabulation; simpl;
    repeat (destruct (xlsx_raises _ _); simpl; try done);
    by rewrite <- !(assoc_L (++)).
Qed.

(** A record of level 0 when a worksheet is bound: the worksheet is
    fitted, the next one added, and three cells are written on it. *)
Lemma save_step_next_sheet tabulation record filled ws row :
  level_of record = 0 →
  save_step xlsx_raises tabulation record filled (Some ws) row
  = match first_error xlsx_raises
            ((filled ++ [ws], on_worksheet autofit)
             :: (filled ++ [called autofit ws], add_worksheet (field_name record))
             :: on_sheet (filled ++ [called autofit ws])
                  (Sheet (field_name record) []) (cells tabulation record 0))
    with
    | Some e => Raise e
    | None => Ok (filled ++ [called autofit ws],
                  Some (Sheet (field_name record) (cells tabulation record 0)),
                  1)
    end.
Proof.
  intros Hlevel. unfold save_step, attempt, cells, called.
  rewrite bool_decide_true by done. rewrite Hlevel.
  destruct tabulation; simpl; rewrite ?app_nil_r;
    repeat (destruct (xlsx_raises _ _); simpl; rewrite ?app_nil_r; try done).
Qed.

(** A record of level 0 when no worksheet is bound. *)
Lemma save_step_first_sheet tabulation record filled row :
  level_of record = 0 →
  save_step xlsx_raises tabulation record filled None row
  = match first_error xlsx_raises
            ((filled, add_worksheet (field_name record))
             :: on_sheet filled (Sheet (field_name record) []) (cells tabulation record 0))
    with
    | Some e => Raise e
    | None => Ok (filled,
                  Some (Sheet (field_name record) (cells tabulation record 0)),
                  1)
    end.
Proof.
  intros Hlevel. unfold save_step, attempt, cells, called.
  rewrite bool_decide_true by done. rewrite Hlevel.
  destruct tabulation; simpl; rewrite ?app_nil_r;
    repeat (destruct (xlsx_raises _ _); simpl; rewrite ?app_nil_r; try done).
Qed.

(** The loop from a bound worksheet on, and the end of the function. *)
Lemma save_loop_calls tabulation path catalogue :
  ∀ filled ws row,
    save_end xlsx_raises path
      (save_loop xlsx_raises tabulation catalogue filled (Some ws) row)
    = match first_error xlsx_raises
              (on_sheet filled ws
                 (cells_from tabulation (chunks catalogue).1 row ++ [autofit])
               ++ workbook_calls
                    (filled
                     ++ [Sheet (title ws)
                           (calls ws
                            ++ cells_from tabulation (chunks catalogue).1 row
                            ++ [autofit])])
                    (sheet_of tabulation <$> (chunks catalogue).2))
      with
      | Some e => Raise e
      | None =>
          Ok (path,
              filled
              ++ Sheet (title ws)
                   (calls ws ++ cells_from tabulation (chunks catalogue).1 row
                    ++ [autofit])
              :: (sheet_of tabulation <$> (chunks catalogue).2))
      end.
Proof.
  induction catalogue as [|record rest IH]; intros filled ws row.
  - unfold save_end, attempt, called. simpl. rewrite ?app_nil_r.
    by repeat (destruct (xlsx_raises _ _); simpl; try done).
  - rewrite chunks_cons.
    change (save_loop xlsx_raises tabulation (record :: rest) filled (Some ws) row)
      with (match save_step xlsx_raises tabulation record filled (Some ws) row with
            | Ok (workbook, worksheet, row) =>
                save_loop xlsx_raises tabulation rest workbook worksheet row
            | Raise e => Raise e
            end).
    case_bool_decide as Hlevel.
    + rewrite save_step_next_sheet by done. unfold called.
      cbn [fst snd cells_from fmap list_fmap workbook_calls on_sheet app first_error].
      rewrite !sheet_of_cons. cbn [title calls].
      destruct (xlsx_raises (filled ++ [ws]) (on_worksheet autofit)); [done|].
      destruct (xlsx_raises _ (add_worksheet _)); [done|].
      rewrite on_sheet_app, <- app_assoc, first_error_app.
      destruct (first_error xlsx_raises (on_sheet _ _ (cells _ _ _))); [done|].
      rewrite IH. cbn [title calls app].
      by rewrite <- ?app_assoc.
    + rewrite save_step_writes by done.
      cbn [fst snd cells_from].
      rewrite <- app_assoc, on_sheet_app, <- app_assoc, first_error_app.
      destruct (first_error xlsx_raises (on_sheet _ _ (cells _ _ _))); [done|].
      rewrite IH. cbn [title calls].
      by rewrite <- ?app_assoc.
Qed.

Variable path_join : string → string → string.
Variable strftime : date → string.
Variable directory : string.
Variable run_date : date.

(** The whole function on a list that begins with a record of level 0:
    it makes the calls that fill the workbook with the worksheets of the
    groups, up to the first call that raises. *)
Lemma save_to_excel_calls file_name catalogue tabulation :
  head (level_of <$> catalogue) = Some 0 →
  save_to_excel xlsx_raises path_join strftime directory run_date
    file_name catalogue tabulation
  = match first_error xlsx_raises
            (workbook_calls [] (sheet_of tabulation <$> (chunks catalogue).2))
    with
    | Some e => Raise e
    | None =>
        Ok (path_join directory file_name +:+ "_" +:+ strftime run_date +:+ ".xlsx",
            sheet_of tabulation <$> (chunks catalogue).2)
    end.
Proof.
  destruct catalogue as [|record rest]; [done|]. intros [= Hlevel].
  change (save_to_excel xlsx_raises path_join strftime directory run_date
            file_name (record :: rest) tabulation)
    with (save_end xlsx_raises
            (path_join directory file_name +:+ "_" +:+ strftime run_date +:+ ".xlsx")
            (match save_step xlsx_raises tabulation record [] None 0 with
             | Ok (workbook, worksheet, row) =>
                 save_loop xlsx_raises tabulation rest workbook worksheet row
             | Raise e => Raise e
             end)).
  rewrite chunks_cons, bool_decide_true by done.
  rewrite save_step_first_sheet by done.
  cbn [fst snd fmap list_fmap workbook_calls first_error].
  rewrite !sheet_of_cons. cbn [title calls].
  destruct (xlsx_raises [] (add_worksheet _)); [done|].
  rewrite on_sheet_app, <- app_assoc, first_error_app.
  destruct (first_error xlsx_raises (on_sheet _ _ (cells _ _ _))); [done|].
  rewrite save_loop_calls. cbn [title calls app].
  by rewrite <- ?app_assoc.
Qed.

End Calls.

Lemma cells_from_plain records :
  ∀ row, omap without_column (cells_from true records row)
         = omap without_column (cells_from false records row).
Proof.
  induction records as [|record rest IH]; intros row; [done|]. simpl.
  by rewrite IH.
Qed.

Lemma cells_from_first_columns records :
  ∀ row, Forall in_first_columns (cells_from false records row).
Proof.
  induction records as [|record rest IH]; intros row; [done|]. simpl.
  repeat (constructor; [simpl; lia|]). apply IH.
Qed.

Lemma cells_from_rows tabulation records :
  ∀ row, Forall (λ p, row ≤ p.1) (omap position (cells_from tabulation records row)).
Proof.
  induction records as [|record rest IH]; intros row; [done|]. simpl.
  repeat (constructor; [simpl; lia|]).
  eapply Forall_impl; [apply IH|]. simpl. intros p Hp. lia.
Qed.

Lemma cells_from_NoDup tabulation records :
  ∀ row, NoDup (omap position (cells_from tabulation records row)).
Proof.
  induction records as [|record rest IH]; intros row; [constructor|]. simpl.
  pose proof (cells_from_rows tabulation rest (row + 1)) as Hrows.
  rewrite Forall_forall in Hrows.
  assert (∀ col, (row, col) ∉ omap position (cells_from tabulation rest (row + 1)))
    as Hfresh.
  { intros col Hin. apply Hrows in Hin. simpl in Hin. lia. }
  repeat (constructor; [rewrite ?not_elem_of_cons; repeat split;
                        try apply Hfresh; intros [= ?]; lia|]).
  apply IH.
Qed.

Lemma omap_position_snoc_autofit l :
  omap position (l ++ [autofit]) = omap position l.
Proof. by rewrite omap_app, app_nil_r. Qed.

Section Export_theorems.

Variable path_join : string → string → string.
Variable strftime : date → string.
Variable directory : string.
Variable run_date : date.

(** X8: whatever xlsxwriter does, [save_to_excel] ends with
    UnboundLocalError when the list is empty or its first record has
    another level than 0: no worksheet is bound when the first cell is to
    be written, or when the last worksheet is to be fitted. *)
Theorem save_to_excel_unbound_worksheet xlsx_raises file_name catalogue tabulation :
  head (level_of <$> catalogue) ≠ Some 0 →
  save_to_excel xlsx_raises path_join strftime directory run_date
    file_name catalogue tabulation
  = Raise unbound_worksheet.
Proof. apply save_to_excel_unbound. Qed.

(** X9: a list whose first record has level 0 falls into groups, each a
    record of level 0 with the records up to the next one.  The call
    makes the calls that fill a workbook with one worksheet for each
    group, in order: the worksheet is added under the name of the first
    record of the group, each record of the group is written in a row of
    its own, counted from 0 in the order of the list, as the three cells
    level, id, name from column 0 (from column 3 * level with
    tabulation), and the worksheet is fitted once, at the end; the
    workbook is closed last.  When none of these calls raises, the call
    returns the path made of the directory, the file name and the run
    date, with that workbook; otherwise it ends with the exception of the
    first call that raises. *)
Theorem save_to_excel_groups xlsx_raises file_name catalogue tabulation :
  head (level_of <$> catalogue) = Some 0 →
  ∃ groups,
    concat groups = catalogue ∧
    Forall is_group groups ∧
    save_to_excel xlsx_raises path_join strftime directory run_date
      file_name catalogue tabulation
    = match first_error xlsx_raises
              (workbook_calls [] (sheet_of tabulation <$> groups))
      with
      | Some e => Raise e
      | None =>
          Ok (path_join directory file_name +:+ "_" +:+ strftime run_date +:+ ".xlsx",
              sheet_of tabulation <$> groups)
      end.
Proof.
  intros Hhead. exists (chunks catalogue).2. split; [|split].
  - pose proof (chunks_concat catalogue) as Hconcat.
    by rewrite (chunks_head_zero _ Hhead) in Hconcat.
  - apply chunks_groups.
  - by apply save_to_excel_calls.
Qed.

(** X10: the tabulation moves cells to the right and changes nothing
    else: a call with it and a call without it that both return give the
    same path and the same worksheets, with the same values in the same
    rows in the same order; without it every cell is in one of the
    columns 0, 1 and 2. *)
Theorem tabulation_only_moves_columns xlsx_raises xlsx_raises' file_name catalogue
  path workbook path' workbook' :
  save_to_excel xlsx_raises path_join strftime directory run_date
    file_name catalogue true = Ok (path, workbook) →
  save_to_excel xlsx_raises' path_join strftime directory run_date
    file_name catalogue false = Ok (path', workbook') →
  path = path' ∧
  plain workbook = plain workbook' ∧
  Forall (λ ws, Forall in_first_columns (calls ws)) workbook'.
Proof.
  intros (_ & -> & ->)%save_to_excel_returned (_ & -> & ->)%save_to_excel_returned.
  split; [done|]. split.
  - unfold plain. rewrite <- !list_fmap_compose. apply list_fmap_ext.
    intros _ group _. simpl. f_equal. by rewrite !omap_app, cells_from_plain.
  - apply Forall_fmap, Forall_forall. intros group _. simpl.
    apply Forall_app. split; [apply cells_from_first_columns|by repeat constructor].
Qed.

(** X11: no cell is written twice: in every worksheet of the workbook
    that [save_to_excel] returns, the written positions are pairwise
    different. *)
Theorem save_to_excel_writes_each_cell_once xlsx_raises file_name catalogue tabulation
  path workbook :
  save_to_excel xlsx_raises path_join strftime directory run_date
    file_name catalogue tabulation = Ok (path, workbook) →
  Forall (λ ws, NoDup (omap position (calls ws))) workbook.
Proof.
  intros (_ & _ & ->)%save_to_excel_returned.
  apply Forall_fmap, Forall_forall. intros group _. simpl.
  rewrite omap_position_snoc_autofit. apply cells_from_NoDup.
Qed.

End Export_theorems.

Lemma save_to_excel_unbound_worksheet_witness :
  save_to_excel silent join_posix iso_2024_10_04 "dir" 20000 "Result" [row_B 1; row_A] true
  = Raise unbound_worksheet.
Proof.
  apply (save_to_excel_unbound_worksheet join_posix iso_2024_10_04 "dir" 20000 silent
           "Result" [row_B 1; row_A] true).
  simpl. intros [=].
Defined.

Lemma save_to_excel_groups_witness :
  ∃ groups,
    concat groups = rows_AX ++ [row_R] ∧
    Forall is_group groups ∧
    save_to_excel refuses_duplicates join_posix iso_2024_10_04 "dir" 20000
      "Result" (rows_AX ++ [row_R]) true
    = match first_error refuses_duplicates
              (workbook_calls [] (sheet_of true <$> groups))
      with
      | Some e => Raise e
      | None =>
          Ok (join_posix "dir" "Result" +:+ "_" +:+ iso_2024_10_04 20000 +:+ ".xlsx",
              sheet_of true <$> groups)
      end.
Proof.
  apply (save_to_excel_groups join_posix iso_2024_10_04 "dir" 20000 refuses_duplicates
           "Result" (rows_AX ++ [row_R]) true).
  reflexivity.
Defined.

(** The export of the sample rows with a library that refuses duplicate
    names: two worksheets when the names differ, an exception at the
    second [add_worksheet] when two records of level 0 have the same
    name. *)
Example export_with_distinct_names :
  save_to_excel refuses_duplicates join_posix iso_2024_10_04 "dir" 20000
    "Result" (rows_AX ++ [row_R]) true
  = Ok ("dir/Result_2024-10-04.xlsx", sheet_of true <$> [rows_AX; [row_R]]).
Proof. done. Qed.

Example export_with_duplicate_names :
  save_to_excel refuses_duplicates join_posix iso_2024_10_04 "dir" 20000
    "Result" (rows_AX ++ [row_A]) true
  = Raise duplicate_worksheet_name.
Proof. done. Qed.

Lemma tabulation_only_moves_columns_witness :
  "dir/Result_2024-10-04.xlsx" = "dir/Result_2024-10-04.xlsx" ∧
  plain (sheet_of true <$> [rows_AX; [row_A]])
  = plain (sheet_of false <$> [rows_AX; [row_A]]) ∧
  Forall (λ ws, Forall in_first_columns (calls ws))
         (sheet_of false <$> [rows_AX; [row_A]]).
Proof.
  apply (tabulation_only_moves_columns join_posix iso_2024_10_04 "dir" 20000
           silent silent "Result" (rows_AX ++ [row_A])); reflexivity.
Defined.

Lemma save_to_excel_writes_each_cell_once_witness :
  Forall (λ ws, NoDup (omap position (calls ws)))
         (sheet_of true <$> [rows_AX; [row_A]]).
Proof.
  apply (save_to_excel_writes_each_cell_once join_posix iso_2024_10_04 "dir" 20000
           silent "Result" (rows_AX ++ [row_A]) true "dir/Result_2024-10-04.xlsx").
  reflexivity.
Defined.

(** ** The walk and the export together *)

Lemma traverse_json_all_malformed (aio_req : nat → string → reply) cs level st :
  Forall (λ c, well_formed c = false) cs →
  traverse_json aio_req cs level st = (Ok (), st).
Proof.
  induction 1 as [|c cs Hc _ IH]; [done|].
  by rewrite traverse_json_cons, traverse_step_malformed.
Qed.

Lemma rows_of_reachable_nil depth cs :
  rows_of (flat_map (reachable depth) cs) = [] →
  Forall (λ c, well_formed c = false) cs.
Proof.
  induction cs as [|c cs IH]; [done|]. simpl. rewrite rows_of_app.
  intros [Hc Hcs]%app_eq_nil. constructor; [|by apply IH].
  destruct (well_formed c) eqn:Hwf; [|done].
  destruct (entry_well_formed c depth Hwf) as (r & Hr & _).
  by rewrite (rows_of_reachable _ _ _ Hr) in Hc.
Qed.

Lemma filter_level_zero_entries rows :
  Forall level_in_range rows →
  filter (λ r, level_of r = 0) rows = filter (λ r, level_of r = 0) (entries rows).
Proof.
  induction 1 as [|[n u s q l i|p x l i] rows Hr _ IH]; [done| |].
  - rewrite entries_cons_entry.
    destruct (decide (l = 0)) as [->|Hl].
    + by rewrite !filter_cons_True, IH.
    + by rewrite !filter_cons_False, IH.
  - rewrite entries_cons_facet, filter_cons_False; [done|].
    unfold level_in_range in Hr. simpl in *. lia.
Qed.

Lemma rows_of_cons depth c l :
  rows_of ((depth, c) :: l)
  = match entry c depth with Ok r => [r] | Raise _ => [] end ++ rows_of l.
Proof. done. Qed.

Lemma filter_level_zero_rows_of l :
  filter (λ r, level_of r = 0) (rows_of l) = rows_of (filter (λ dc, dc.1 = 0) l).
Proof.
  induction l as [|[d c] l IH]; [done|].
  rewrite rows_of_cons, filter_app, IH.
  destruct (decide (d = 0)) as [->|Hd].
  - rewrite filter_cons_True by done. rewrite rows_of_cons.
    destruct (entry c 0) as [r|e] eqn:Hr; [|done].
    destruct (entry_Ok _ _ _ Hr) as (_ & _ & Hlevel & _).
    by rewrite filter_cons_True.
  - rewrite filter_cons_False by done.
    destruct (entry c d) as [r|e] eqn:Hr; [|done].
    destruct (entry_Ok _ _ _ Hr) as (_ & _ & Hlevel & _).
    rewrite filter_cons_False; [done|]. simpl. lia.
Qed.

Lemma filter_none {A : Type} (P : A → Prop) `{∀ x, Decision (P x)} (l : list A) :
  Forall (λ x, ¬ P x) l → filter P l = [].
Proof. induction 1; [done|]. by rewrite filter_cons_False. Qed.

Lemma filter_depth_zero_reachable cs :
  filter (λ dc : Z * category, dc.1 = 0) (flat_map (reachable 0) cs)
  = (λ c, (0, c)) <$> filter (λ c, well_formed c = true) cs.
Proof.
  induction cs as [|c cs IH]; [done|]. simpl. rewrite filter_app, IH, reachable_eq.
  destruct (well_formed c) eqn:Hc.
  - rewrite filter_cons_True by done. rewrite (filter_cons_True _ c) by done.
    rewrite filter_none; [done|].
    apply Forall_flat_map, Forall_forall. intros c' _.
    eapply Forall_impl; [apply (reachable_depths c' (0 + 1))|]. simpl. lia.
  - rewrite filter_cons_False; [done|]. rewrite Hc. done.
Qed.

Lemma field_name_top cs :
  field_name <$> rows_of ((λ c, (0, c)) <$> filter (λ c, well_formed c = true) cs)
  = top_names cs.
Proof.
  induction cs as [|c cs IH]; [done|]. unfold top_names in *. simpl.
  destruct (well_formed c) eqn:Hc.
  - rewrite filter_cons_True by done. rewrite fmap_cons, rows_of_cons.
    destruct c as [[n|] [u|] s [q|] [i|] cs']; try done. simpl. f_equal. apply IH.
  - rewrite filter_cons_False; [done|]. by rewrite Hc.
Qed.

Lemma chunks_titles tabulation catalogue :
  title <$> (sheet_of tabulation <$> (chunks catalogue).2)
  = field_name <$> filter (λ r, level_of r = 0) catalogue.
Proof.
  induction catalogue as [|record rest IH]; [done|]. rewrite chunks_cons.
  case_bool_decide.
  - rewrite filter_cons_True by done. cbn [snd].
    rewrite !fmap_cons. f_equal. apply IH.
  - by rewrite filter_cons_False.
Qed.

Section Run.

Variable xlsx_raises : list sheet → xlsx_call → option exn.
Variable path_join : string → string → string.
Variable strftime : date → string.
Variable directory : string.
Variable run_date : date.
Variable aio_req : nat → string → reply.


(** X13: when [run_parser] returns, the local copy exists and the
    workbook has exactly one worksheet for each well-formed category of
    the top list of the document in that copy, named after the category,
    in the order of the document. *)
Theorem run_parser_sheets fromtimestamp remote now tabulation local_catalogue
  path workbook local_catalogue' :
  run_parser xlsx_raises path_join strftime directory run_date fromtimestamp aio_req
    remote now tabulation local_catalogue
  = (Ok (path, workbook), local_catalogue') →
  ∃ f, local_catalogue' = Some f ∧ title <$> workbook = top_names (content f).
Proof.
  unfold run_parser.
  destruct (download_current_catalogue _ _ _ _ _) as [[[[]|e] [f|]] asked]; try done.
  destruct (process_catalogue aio_req (content f)) as [rows|e] eqn:Hrun; [|done].
  intros [= Hsave <-]. exists f. split; [done|].
  apply save_to_excel_returned in Hsave as (_ & _ & ->).
  destruct (levels_of_run _ _ _ Hrun) as [Hlevels _].
  rewrite chunks_titles, (filter_level_zero_entries _ Hlevels).
  rewrite (process_catalogue_entries _ _ _ Hrun).
  by rewrite filter_level_zero_rows_of, filter_depth_zero_reachable, field_name_top.
Qed.

End Run.


Lemma run_parser_sheets_witness :
  ∃ f, Some (File (1728000000 # 1) [nameless_parent; node_A; redirect_leaf]) = Some f ∧
       title <$> (sheet_of true <$> [rows_AX; [Entry "R" "/r" 5 "q5" 0 130090]])
       = top_names (content f).
Proof.
  apply (run_parser_sheets silent join_posix iso_2024_10_04 "dir" 20000
           (always (Json response_X)) utc_date
           (inr [nameless_parent; node_A; redirect_leaf]) (1728000000 # 1) true None
           "dir/Result_2024-10-04.xlsx").
  reflexivity.
Defined.

(** ** The prompt *)

(** X14: the prompt is repeated until a line is one of the eight answers;
    the first such line decides, and the tabulation is on exactly when
    that line is y, Y, yes or Yes.  The lines before it are ignored, the
    lines after it are not read. *)
Theorem ask_first_valid_answer answers b :
  ask answers = Some b ↔
  ∃ skipped mode rest,
    answers = skipped ++ mode :: rest ∧
    Forall (λ a, a ∉ valid_answers) skipped ∧
    mode ∈ valid_answers ∧
    b = bool_decide (mode ∈ yes_answers).
Proof.
  induction answers as [|a answers IH]; simpl.
  - split; [done|]. by intros ([|? ?] & ? & ? & ? & _).
  - case_bool_decide as Ha.
    + split.
      * intros [= <-]. by exists [], a, answers.
      * intros ([|a' skipped] & mode & rest & Heq & Hskipped & Hmode & ->).
        -- by injection Heq as -> _.
        -- injection Heq as -> _. by apply Forall_cons in Hskipped as [? _].
    + rewrite IH. split.
      * intros (skipped & mode & rest & -> & Hskipped & Hmode & ->).
        exists (a :: skipped), mode, rest.
        split; [done|]. split; [by constructor|done].
      * intros ([|a' skipped] & mode & rest & Heq & Hskipped & Hmode & ->).
        -- by injection Heq as -> _.
        -- injection Heq as -> ->. apply Forall_cons in Hskipped as [_ Hskipped].
           by exists skipped, mode, rest.
Qed.

(** ** Nodes that are passed over, runs that end early *)

(** X15: a category without [name], [url], [query] or [id] is passed over
    with everything below it: the walk of a list that contains it is the
    walk of the list without it, in rows, requests and outcome. *)
Theorem malformed_category_is_passed_over (aio_req : nat → string → reply)
  before c after level st :
  well_formed c = false →
  traverse_json aio_req (before ++ c :: after) level st
  = traverse_json aio_req (before ++ after) level st.
Proof. apply traverse_json_skip. Qed.

Lemma malformed_category_is_passed_over_witness :
  traverse_json (always (Json response_X)) ([node_A] ++ idless_parent :: [redirect_leaf])
    (-1) (State [] [])
  = traverse_json (always (Json response_X)) ([node_A] ++ [redirect_leaf])
      (-1) (State [] []).
Proof.
  apply (malformed_category_is_passed_over (always (Json response_X))
           [node_A] idless_parent [redirect_leaf] (-1) (State [] [])).
  reflexivity.
Defined.

(** X17: at a well-formed category without [childs] and without [shard]
    (and with another id than 130090) the iteration appends the row of the
    category with 99999 as its shard and then raises KeyError for
    [shard]; no request is made. *)
Theorem leaf_without_shard_raises (aio_req : nat → string → reply) c level st r :
  entry c (level + 1) = Ok r → childs c = None → id c ≠ Some redirect_id →
  shard c = None →
  (∃ n u q i, r = Entry n u default_shard q (level + 1) i) ∧
  traverse_step aio_req c level st
  = (Raise (KeyError "shard"),
     State (flattened_catalogue st ++ [r]) (requests st)).
Proof.
  intros Hr Hcs Hid Hs. split; [by eapply entry_default_shard|].
  by apply traverse_step_missing_shard.
Qed.

Lemma leaf_without_shard_raises_witness :
  (∃ n u q i, Entry "S" "/s" 99999 "q4" 1 4 = Entry n u default_shard q (0 + 1) i) ∧
  traverse_step (always (Json response_X)) shardless_leaf 0 (State [row_A] [])
  = (Raise (KeyError "shard"), State ([row_A] ++ [Entry "S" "/s" 99999 "q4" 1 4]) []).
Proof.
  apply (leaf_without_shard_raises (always (Json response_X)) shardless_leaf 0
           (State [row_A] []) (Entry "S" "/s" 99999 "q4" 1 4)); try reflexivity.
  intros [=].
Defined.

Lemma entries_append c level r st :
  entry c level = Ok r →
  entries (flattened_catalogue (append r st)) = entries (flattened_catalogue st) ++ [r].
Proof.
  intros Hr. simpl. rewrite entries_app.
  destruct (entry_Ok _ _ _ Hr) as (_ & Hnot & _).
  unfold entries at 2. by rewrite filter_cons_True.
Qed.

Lemma traverse_step_prefix (aio_req : nat → string → reply) c :
  ∀ level st res st',
    traverse_step aio_req c level st = (res, st') →
    entries (flattened_catalogue st')
    `prefix_of` entries (flattened_catalogue st) ++ rows_of (reachable (level + 1) c).
Proof.
  induction c as [c IH] using category_induction. intros level st res st'.
  destruct (traverse_step_view aio_req c level st)
    as [Hc|r cs Hr Hcs|r Hr Hcs Hid|r i Hr Hcs Hid Hi]; intros Hrun.
  - simplify_eq. by apply prefix_app_r.
  - apply returning_inv in Hrun as [<- _].
    rewrite (rows_of_reachable _ _ _ Hr). unfold children in *. rewrite Hcs in *.
    assert (Hloop : ∀ level st,
      entries (flattened_catalogue (traverse_json aio_req cs level st).2)
      `prefix_of` entries (flattened_catalogue st)
                  ++ rows_of (flat_map (reachable (level + 1)) cs)).
    { clear -IH. induction IH as [|c' cs' Hc' _ IHcs]; intros level st.
      - by apply prefix_app_r.
      - rewrite traverse_json_cons. simpl. rewrite rows_of_app, (assoc_L (++)).
        destruct (traverse_step aio_req c' level st) as [[l|e] st1] eqn:Hstep.
        + destruct (traverse_step_entries _ _ _ _ _ _ Hstep) as [-> <-]. apply IHcs.
        + apply prefix_app_r. by eapply Hc'. }
    specialize (Hloop (level + 1) (append r st)).
    rewrite (entries_append _ _ _ _ Hr) in Hloop.
    by rewrite <- (assoc_L (++)) in Hloop.
  - simplify_eq. rewrite (rows_of_reachable _ _ _ Hr). unfold children.
    rewrite Hcs. by rewrite (entries_append _ _ _ _ Hr).
  - destruct (node_json aio_req c (level + 2) (append r st)) as [res1 st1] eqn:Hcall.
    apply returning_inv in Hrun as [<- _]. simpl.
    rewrite (node_json_entries _ _ _ _ _ _ Hcall).
    rewrite (rows_of_reachable _ _ _ Hr). unfold children.
    rewrite Hcs. by rewrite (entries_append _ _ _ _ Hr).
Qed.

(** X18: whether the walk returns or raises, the catalogue rows in the
    list afterwards are a beginning of the list that a walk to the end
    gives: the catalogue rows from before, then the rows of the reachable
    well-formed categories in pre-order.  An exception loses the rest and
    alters nothing that was appended. *)
Theorem traverse_json_rows_so_far (aio_req : nat → string → reply) cs level st res st' :
  traverse_json aio_req cs level st = (res, st') →
  entries (flattened_catalogue st')
  `prefix_of` entries (flattened_catalogue st)
              ++ rows_of (flat_map (reachable (level + 1)) cs).
Proof.
  revert level st res st'. induction cs as [|c cs IH]; intros level st res st'.
  - intros [= <- <-]. by apply prefix_app_r.
  - rewrite traverse_json_cons. simpl. rewrite rows_of_app, (assoc_L (++)).
    destruct (traverse_step aio_req c level st) as [[l|e] st1] eqn:Hstep.
    + destruct (traverse_step_entries _ _ _ _ _ _ Hstep) as [-> <-]. apply IH.
    + intros [= <- <-]. apply prefix_app_r. by eapply traverse_step_prefix.
Qed.

Lemma traverse_json_rows_so_far_witness :
  entries [row_A; row_B 1]
  `prefix_of` entries [] ++ rows_of (flat_map (reachable (-1 + 1)) [node_A; redirect_leaf]).
Proof.
  apply (traverse_json_rows_so_far (always (Raises (OtherError "TimeoutError")))
           [node_A; redirect_leaf] (-1) (State [] [])
           (Raise (OtherError "TimeoutError")) (State [row_A; row_B 1] [url_B])).
  reflexivity.
Defined.

(** * One dropped connection, and runs one after the other *)

Lemma shift_nil acc reqs : shift acc (State [] reqs) = State acc reqs.
Proof. unfold shift. simpl. by rewrite app_nil_r. Qed.

Lemma leaves_app l l' : leaves (l ++ l') = leaves l ++ leaves l'.
Proof. apply filter_app. Qed.

Lemma traverse_step_request_count (aio_req : nat → string → reply) c level st l st' :
  traverse_step aio_req c level st = (Ok l, st') →
  length (requests st')
  = (length (requests st) + length (leaves (reachable (level + 1) c)))%nat.
Proof.
  intros Hstep.
  destruct (traverse_step_requests _ _ _ _ _ _ Hstep) as (urls & -> & Hurls).
  apply (f_equal length) in Hurls. unfold lookups in Hurls.
  rewrite !length_fmap in Hurls. rewrite length_app. unfold leaves. lia.
Qed.

Section One_failure.

Variable aio_req : nat → string → reply.
Variable k : nat.

Lemma isolated_nil n : isolated aio_req k n [] [] [].
Proof. split; [done|]. simpl. lia. Qed.

Lemma isolated_app n R1 R2 a1 a2 b1 b2 :
  entries a1 = rows_of R1 →
  isolated aio_req k n R1 a1 b1 →
  isolated aio_req k (n + length (leaves R1)) R2 a2 b2 →
  isolated aio_req k n (R1 ++ R2) (a1 ++ a2) (b1 ++ b2).
Proof.
  intros Ha [Hsame1 Hcut1] [Hsame2 Hcut2]. unfold isolated.
  rewrite leaves_app, length_app. split.
  - intros Hk. by rewrite Hsame1, Hsame2 by lia.
  - intros Hk. destruct (decide (k < n + length (leaves R1))%nat) as [Hlt|Hge].
    + rewrite Hsame2 by lia.
      destruct Hcut1
        as (pre & d & c & post & r & p & u & before & after
            & -> & Hc & Hpre & Hr & Hp & Hu & -> & -> & Hrows); [lia|].
      exists pre, d, c, (post ++ R2), r, p, u, before, (after ++ a2).
      split_and!; try done.
      * by rewrite <- app_assoc.
      * by rewrite <- !app_assoc.
      * by rewrite <- !app_assoc.
    + rewrite Hsame1 by lia.
      destruct Hcut2
        as (pre & d & c & post & r & p & u & before & after
            & -> & Hc & Hpre & Hr & Hp & Hu & -> & -> & Hrows); [lia|].
      exists (R1 ++ pre), d, c, post, r, p, u, (a1 ++ before), after.
      split_and!; try done.
      * by rewrite <- app_assoc.
      * rewrite leaves_app, length_app. lia.
      * by rewrite <- !app_assoc.
      * by rewrite <- !app_assoc.
      * rewrite <- !app_assoc, entries_app, rows_of_app. by rewrite Ha, Hrows.
Qed.

(** A node for which no request is made. *)
Lemma isolated_cons_entry n d c r R rows rows' :
  entry c d = Ok r → augmentable c = false →
  isolated aio_req k n R rows rows' →
  isolated aio_req k n ((d, c) :: R) (r :: rows) (r :: rows').
Proof.
  intros Hr Hc HR.
  assert (leaves [(d, c)] = []) as Hleaves.
  { unfold leaves. rewrite filter_cons_False; [done|]. simpl. by rewrite Hc. }
  apply (isolated_app n [(d, c)] R [r] rows [r] rows').
  - destruct (entry_Ok _ _ _ Hr) as (_ & Hnot & _).
    unfold entries, rows_of. simpl. rewrite Hr.
    by rewrite filter_cons_True by done.
  - split; [done|]. rewrite Hleaves. simpl. lia.
  - rewrite Hleaves. simpl. by rewrite Nat.add_0_r.
Qed.

(** A node for which the request number [n] is made. *)
Lemma isolated_leaf n d c r parent_name u :
  entry c d = Ok r → augmentable c = true →
  name c = Some parent_name → url_of c = Some u →
  isolated aio_req k n [(d, c)]
    (r :: reply_rows parent_name (d + 1) (aio_req n u))
    (if decide (n = k) then [r]
     else r :: reply_rows parent_name (d + 1) (aio_req n u)).
Proof.
  intros Hr Hc Hp Hu.
  assert (leaves [(d, c)] = [(d, c)]) as Hleaves.
  { unfold leaves. by rewrite filter_cons_True by done. }
  unfold isolated. rewrite Hleaves. simpl. split.
  - intros Hk. by rewrite decide_False by lia.
  - intros Hk. assert (n = k) as -> by lia. rewrite decide_True by done.
    exists [], d, c, [], r, parent_name, u, [], [].
    split_and!; try done.
    + simpl. lia.
    + simpl. by rewrite app_nil_r.
    + destruct (entry_Ok _ _ _ Hr) as (_ & Hnot & _).
      unfold entries, rows_of. simpl. rewrite Hr.
      by rewrite filter_cons_True by done.
Qed.

(** The facet lookup under the injected oracle. *)
Lemma node_json_inject c level st st' :
  node_json aio_req c level st = (Ok (), st') →
  ∃ parent_name u,
    name c = Some parent_name ∧ url_of c = Some u ∧
    st' = State (flattened_catalogue st
                 ++ reply_rows parent_name level (aio_req (length (requests st)) u))
                (requests st ++ [u]) ∧
    node_json (inject k aio_req) c level st
    = (Ok (), State (if decide (length (requests st) = k)
                     then flattened_catalogue st
                     else flattened_catalogue st')
                    (requests st ++ [u])).
Proof.
  unfold node_json, url_of, inject.
  destruct (name c) as [p|], (shard c) as [s|], (query c) as [q|]; try done.
  simpl. intros Hrun. exists p, (url_loc s q).
  destruct (decide (length (requests st) = k)) as [Hk|Hk];
    destruct (aio_req _ _) as [response|[]]; simplify_eq;
    unfold extend, requested; simpl; by rewrite ?app_nil_r.
Qed.

Lemma traverse_step_isolated c :
  ∀ level reqs l st1,
    traverse_step aio_req c level (State [] reqs) = (Ok l, st1) →
    ∃ rows',
      traverse_step (inject k aio_req) c level (State [] reqs)
      = (Ok l, State rows' (requests st1)) ∧
      isolated aio_req k (length reqs) (reachable (level + 1) c)
        (flattened_catalogue st1) rows'.
Proof.
  induction c as [c IH] using category_induction. intros level reqs l st1.
  destruct (traverse_step_view aio_req c level (State [] reqs))
    as [Hc|r cs Hr Hcs|r Hr Hcs Hid|r i Hr Hcs Hid Hi].
  - intros [= <- <-]. exists []. rewrite traverse_step_malformed by done.
    split; [done|]. rewrite reachable_eq, Hc. apply isolated_nil.
  - intros [-> Hcall]%returning_Ok.
    unfold children in IH. rewrite Hcs in IH.
    assert (Hloop : ∀ level reqs st1,
      traverse_json aio_req cs level (State [] reqs) = (Ok (), st1) →
      ∃ rows',
        traverse_json (inject k aio_req) cs level (State [] reqs)
        = (Ok (), State rows' (requests st1)) ∧
        isolated aio_req k (length reqs) (flat_map (reachable (level + 1)) cs)
          (flattened_catalogue st1) rows').
    { clear -IH. induction IH as [|c' cs' Hc' _ IHcs]; intros level reqs st1.
      - intros [= <-]. exists []. split; [done|]. apply isolated_nil.
      - rewrite !traverse_json_cons.
        destruct (traverse_step aio_req c' level (State [] reqs))
          as [[l|e] [a reqs_a]] eqn:Hstep; [|done].
        pose proof (traverse_step_level _ _ _ _ _ _ Hstep) as ->.
        pose proof (traverse_step_request_count _ _ _ _ _ _ Hstep) as Hcount.
        destruct (traverse_step_entries _ _ _ _ _ _ Hstep) as [_ Ha].
        destruct (Hc' _ _ _ _ Hstep) as (a' & -> & Ha').
        simpl in *. rewrite <- (shift_nil a reqs_a), <- (shift_nil a' reqs_a).
        rewrite !traverse_json_frame.
        destruct (traverse_json aio_req cs' level (State [] reqs_a))
          as [[[]|e] st_b] eqn:Hrest; [|done].
        intros [= <-]. destruct (IHcs _ _ _ Hrest) as (b' & -> & Hb').
        exists (a' ++ b'). split; [done|]. simpl.
        apply isolated_app; [done..|]. by rewrite <- Hcount. }
    change (append r (State [] reqs)) with (shift [r] (State [] reqs)) in Hcall.
    rewrite traverse_json_frame in Hcall.
    destruct (traverse_json aio_req cs (level + 1) (State [] reqs))
      as [[[]|e] st_b] eqn:Hrest; [|done].
    injection Hcall as <-. destruct (Hloop _ _ _ Hrest) as (b' & Hrun' & Hb').
    exists (r :: b'). erewrite traverse_step_childs by done.
    change (append r (State [] reqs)) with (shift [r] (State [] reqs)).
    rewrite traverse_json_frame, Hrun'. split; [done|].
    rewrite reachable_eq. destruct (entry_Ok _ _ _ Hr) as [-> _].
    unfold children. rewrite Hcs. simpl.
    apply isolated_cons_entry; [done| |done].
    unfold augmentable. by rewrite Hcs.
  - intros [= <- <-]. exists [r]. erewrite traverse_step_redirect by done.
    split; [done|].
    rewrite reachable_eq. destruct (entry_Ok _ _ _ Hr) as [-> _].
    unfold children. rewrite Hcs. simpl.
    apply isolated_cons_entry; [done| |apply isolated_nil].
    unfold augmentable. rewrite Hcs, Hid.
    by rewrite bool_decide_false by (intros Hne; by apply Hne).
  - intros [-> Hcall]%returning_Ok.
    destruct (node_json_inject _ _ _ _ Hcall) as (p & u & Hp & Hu & -> & Hrun').
    eexists. erewrite traverse_step_leaf by done. rewrite Hrun'. simpl.
    split; [done|].
    rewrite reachable_eq. destruct (entry_Ok _ _ _ Hr) as [-> _].
    unfold children. rewrite Hcs. simpl.
    replace (level + 2) with (level + 1 + 1) by lia.
    apply isolated_leaf; try done.
    unfold augmentable. rewrite Hcs, Hid. by apply bool_decide_eq_true.
Qed.

Lemma traverse_json_isolated cs :
  ∀ level reqs st1,
    traverse_json aio_req cs level (State [] reqs) = (Ok (), st1) →
    ∃ rows',
      traverse_json (inject k aio_req) cs level (State [] reqs)
      = (Ok (), State rows' (requests st1)) ∧
      isolated aio_req k (length reqs) (flat_map (reachable (level + 1)) cs)
        (flattened_catalogue st1) rows'.
Proof.
  induction cs as [|c' cs' IHcs]; intros level reqs st1.
  - intros [= <-]. exists []. split; [done|]. apply isolated_nil.
  - rewrite !traverse_json_cons.
    destruct (traverse_step aio_req c' level (State [] reqs))
      as [[l|e] [a reqs_a]] eqn:Hstep; [|done].
    pose proof (traverse_step_level _ _ _ _ _ _ Hstep) as ->.
    pose proof (traverse_step_request_count _ _ _ _ _ _ Hstep) as Hcount.
    destruct (traverse_step_entries _ _ _ _ _ _ Hstep) as [_ Ha].
    destruct (traverse_step_isolated _ _ _ _ _ Hstep) as (a' & -> & Ha').
    simpl in *. rewrite <- (shift_nil a reqs_a), <- (shift_nil a' reqs_a).
    rewrite !traverse_json_frame.
    destruct (traverse_json aio_req cs' level (State [] reqs_a))
      as [[[]|e] st_b] eqn:Hrest; [|done].
    intros [= <-]. destruct (IHcs _ _ _ Hrest) as (b' & -> & Hb').
    exists (a' ++ b'). split; [done|]. simpl.
    apply isolated_app; [done..|]. by rewrite <- Hcount.
Qed.

End One_failure.

(** C7: take a run that returns, and the run on the same catalogue in
    which the reply to request number [k] is replaced by a dropped
    connection.  The second run returns too.  When the first run makes
    no request number [k], the rows are the same.  When it does, the
    request is the one for the category [c] that is number [k] among the
    reached categories with a facet request, in pre-order, and it goes to
    the address [u] of [c], number [k] of the addresses asked; the rows of the first run are the rows of the
    second with, just behind the row of [c], the rows made from the reply
    to that request, under the name of [c] and one level below it; all
    other rows are the same and in the same order. *)
Theorem one_failure_is_isolated (aio_req : nat → string → reply) (k : nat)
  catalogue rows :
  process_catalogue aio_req catalogue = Ok rows →
  ∃ rows',
    process_catalogue (inject k aio_req) catalogue = Ok rows' ∧
    ((length (leaves (flat_map (reachable 0) catalogue)) ≤ k)%nat → rows' = rows) ∧
    ((k < length (leaves (flat_map (reachable 0) catalogue)))%nat →
     ∃ pre d c post r parent_name u before after,
       flat_map (reachable 0) catalogue = pre ++ (d, c) :: post ∧
       augmentable c = true ∧ length (leaves pre) = k ∧
       lookups (flat_map (reachable 0) catalogue) !! k = Some (Some u) ∧
       entry c d = Ok r ∧ name c = Some parent_name ∧ url_of c = Some u ∧
       rows = before ++ [r] ++ reply_rows parent_name (d + 1) (aio_req k u) ++ after ∧
       rows' = before ++ [r] ++ after ∧
       entries (before ++ [r]) = rows_of (pre ++ [(d, c)])).
Proof.
  unfold process_catalogue.
  destruct (traverse_json aio_req catalogue (-1) (State [] []))
    as [[[]|e] st] eqn:Hrun; [|done].
  intros [= <-].
  destruct (traverse_json_isolated aio_req k _ _ _ _ Hrun)
    as (rows' & -> & Hsame & Hcut).
  change (-1 + 1) with 0 in Hsame, Hcut.
  exists rows'. simpl in *. split_and!; [done| |].
  - intros Hk. apply Hsame. by right.
  - intros Hk.
    destruct Hcut
      as (pre & d & c & post & r & p & u & before & after
          & HR & Hc & Hpre & Hr & Hp & Hu & Hrows & Hrows' & Hentries); [lia|].
    exists pre, d, c, post, r, p, u, before, after.
    split_and!; try done; [lia|].
    unfold lookups. rewrite HR, filter_app, filter_cons_True by done.
    rewrite fmap_app, fmap_cons. simpl. rewrite Hu.
    apply list_lookup_middle. rewrite length_fmap. unfold leaves in Hpre. lia.
Qed.

Lemma one_failure_is_isolated_witness :
  ∃ rows',
    process_catalogue (inject 1 (always (Json response_X))) [node_A; leaf_B]
    = Ok rows' ∧
    ((length (leaves (flat_map (reachable 0) [node_A; leaf_B])) ≤ 1)%nat →
     rows' = [row_A; row_B 1; row_X 2; row_B 0; row_X 1]) ∧
    ((1 < length (leaves (flat_map (reachable 0) [node_A; leaf_B])))%nat →
     ∃ pre d c post r parent_name u before after,
       flat_map (reachable 0) [node_A; leaf_B] = pre ++ (d, c) :: post ∧
       augmentable c = true ∧ length (leaves pre) = 1%nat ∧
       lookups (flat_map (reachable 0) [node_A; leaf_B]) !! 1%nat = Some (Some u) ∧
       entry c d = Ok r ∧ name c = Some parent_name ∧ url_of c = Some u ∧
       [row_A; row_B 1; row_X 2; row_B 0; row_X 1]
       = before ++ [r]
         ++ reply_rows parent_name (d + 1) (always (Json response_X) 1%nat u)
         ++ after ∧
       rows' = before ++ [r] ++ after ∧
       entries (before ++ [r]) = rows_of (pre ++ [(d, c)])).
Proof.
  apply (one_failure_is_isolated (always (Json response_X)) 1 [node_A; leaf_B]
           [row_A; row_B 1; row_X 2; row_B 0; row_X 1]).
  reflexivity.
Defined.

(** The run of the sample above with the second reply dropped: the rows
    made from the second reply are gone, the others stay where they were. *)
Example second_reply_dropped :
  process_catalogue (always (Json response_X)) [node_A; leaf_B]
  = Ok [row_A; row_B 1; row_X 2; row_B 0; row_X 1] ∧
  process_catalogue (inject 1 (always (Json response_X))) [node_A; leaf_B]
  = Ok [row_A; row_B 1; row_X 2; row_B 0].
Proof. by split. Qed.

(** ** Runs one after the other *)

Lemma behind_append history r st :
  behind history (append r st) = append r (behind history st).
Proof. done. Qed.

Lemma later_returning history level x :
  later history (returning level x) = returning level (later history x).
Proof. by destruct x as [[[]|e] st]. Qed.

Section History.

Variable aio_req : nat → string → reply.
Variable history : list string.

Hypothesis aio_req_stub : stub aio_req.

Lemma node_json_later c level st :
  node_json aio_req c level (behind history st)
  = later history (node_json aio_req c level st).
Proof.
  unfold node_json. destruct (name c), (shard c), (query c); try done. simpl.
  rewrite (aio_req_stub (length (history ++ requests st)) (length (requests st))).
  destruct (aio_req _ _) as [response|[]]; try done;
    unfold later, behind, extend, requested; simpl; by rewrite (assoc_L (++)).
Qed.

Lemma traverse_step_later c :
  ∀ level st,
    traverse_step aio_req c level (behind history st)
    = later history (traverse_step aio_req c level st).
Proof.
  induction c as [c IH] using category_induction. intros level st.
  destruct (traverse_step_view aio_req c level st)
    as [Hc|r cs Hr Hcs|r Hr Hcs Hid|r i Hr Hcs Hid Hi].
  - by rewrite traverse_step_malformed.
  - erewrite traverse_step_childs by done.
    rewrite later_returning, <- behind_append. f_equal.
    unfold children in IH. rewrite Hcs in IH.
    generalize (level + 1) (append r st). clear -IH.
    induction IH as [|c' cs' Hc' _ IHcs]; intros level st; [done|].
    rewrite !traverse_json_cons, Hc'.
    destruct (traverse_step aio_req c' level st) as [[l|e] st1]; simpl; [|done].
    apply IHcs.
  - erewrite traverse_step_redirect by done. by rewrite <- behind_append.
  - erewrite traverse_step_leaf by done.
    by rewrite later_returning, <- behind_append, node_json_later.
Qed.

Lemma traverse_json_later cs :
  ∀ level st,
    traverse_json aio_req cs level (behind history st)
    = later history (traverse_json aio_req cs level st).
Proof.
  induction cs as [|c cs IH]; intros level st; [done|].
  rewrite !traverse_json_cons, traverse_step_later.
  destruct (traverse_step aio_req c level st) as [[l|e] st1]; simpl; [|done].
  apply IH.
Qed.

Lemma process_catalogue_after_stub catalogue :
  (process_catalogue_after aio_req history catalogue).1
  = process_catalogue aio_req catalogue.
Proof.
  unfold process_catalogue_after, process_catalogue.
  replace (State [] history) with (behind history (State [] []))
    by (unfold behind; simpl; by rewrite app_nil_r).
  rewrite traverse_json_later.
  by destruct (traverse_json aio_req catalogue (-1) (State [] [])) as [[[]|e] st].
Qed.

End History.



(** Without the stub the two runs need not agree: on a network that
    answers its first request only, the second run has no augmented
    rows. *)
Example runs_differ_without_stub :
  two_runs (first_only (Json response_X)) [] [leaf_B]
  = (Ok [row_B 0; row_X 1], Ok [row_B 0]).
Proof. done. Qed.
